(** * mcpzimage: the task queue, its worker and the websocket hub

    A shallow embedding of the Go server of asccclass/mcpzimage.  The
    repository holds two generations of the server: the current one, whose
    [taskWorker] claims a task inside [db.Transaction], and the older
    [server.go], whose [taskWorker] reads and marks a task in two separate
    statements.  The current server is embedded in full; of [server.go],
    which differs from it in that step and in keeping GORM's default
    logger, the claim step (modules [ServerGo] and [ServerGoLoop]).

    The database is a single table of [Task] rows.  The GORM calls the
    server makes ([Where], [Order], [Limit], [First], [Find], [Save],
    [Create]) are written out as functions on that table, the websocket hub
    as the set [clients] together with the channel [broadcast], and the
    goroutines as the actions of a labelled transition system whose trace
    records every write, send, log line and sleep.

    What the environment decides is an argument of the action: the clock,
    the result of a read or a write on a socket, the result of the python
    process, a failure of the store inside the transaction or at its
    commit.  A statement on the store whose error the program drops
    ([db.Create], [db.Find], the last [db.Save] of the worker) is taken on
    a store that works.  A send on [broadcast] is recorded when it is
    made; the sender is not held until the dispatcher takes the frame, so
    the system has every interleaving of the program and more. *)

From Stdlib Require Import ZArith NArith Lia Ascii.
From stdpp Require Import base strings list gmap sets sorting pretty.

Set Warnings "-clear-no-such-hyp".

Local Open Scope string_scope.
Local Open Scope list_scope.

(** ** 1. The database model *)

(** [time.Time], as an instant; [0] is the zero value ([IsZero]). *)
Abbreviation Time := Z.

(** [type Task struct].  [ID] is a [uint] the store assigns; the program
    never computes with it. *)
Record Task := mkTask {
  ID : N;
  Prompt : string;
  Status : string;       (* Pending, Processing, Completed, Failed *)
  ImagePath : string;
  CreatedAt : Time;
  UpdatedAt : Time
}.

#[global] Instance Task_eq_dec : EqDecision Task.
Proof. solve_decision. Defined.

Definition with_Status (s : string) (t : Task) : Task :=
  mkTask (ID t) (Prompt t) s (ImagePath t) (CreatedAt t) (UpdatedAt t).
Definition with_ImagePath (p : string) (t : Task) : Task :=
  mkTask (ID t) (Prompt t) (Status t) p (CreatedAt t) (UpdatedAt t).
Definition with_UpdatedAt (u : Time) (t : Task) : Task :=
  mkTask (ID t) (Prompt t) (Status t) (ImagePath t) (CreatedAt t) u.

(** [var task Task]: the zero value. *)
Definition zeroTask : Task := mkTask 0 "" "" "" 0%Z 0%Z.

(** The table [tasks], in rowid order. *)
Abbreviation DB := (list Task).

(** Errors of a database call: [gorm.ErrRecordNotFound], or a failure of
    the store itself. *)
Inductive error :=
| ErrRecordNotFound
| ErrStorage (msg : string).

#[global] Instance error_eq_dec : EqDecision error.
Proof. solve_decision. Defined.

Module Gorm.

(** [Where("status = ?", s)] *)
Definition Where_status (s : string) (rows : DB) : DB :=
  filter (λ r, Status r = s) rows.

(** [ORDER BY created_at asc, tasks.id]: what [Order("created_at asc")]
    followed by [First] sends to the store.  [First] is [Limit(1)] with the
    primary key added to the ordering, behind the columns already there. *)
Definition created_asc_id (a b : Task) : Prop :=
  (CreatedAt a < CreatedAt b)%Z ∨
  (CreatedAt a = CreatedAt b ∧ (ID a ≤ ID b)%N).

(** [ORDER BY created_at desc] *)
Definition created_desc (a b : Task) : Prop :=
  (CreatedAt b ≤ CreatedAt a)%Z.

#[global] Instance created_asc_id_dec a b : Decision (created_asc_id a b).
Proof. unfold created_asc_id. apply _. Defined.
#[global] Instance created_desc_dec a b : Decision (created_desc a b).
Proof. unfold created_desc. apply _. Defined.

Definition Order (R : relation Task) `{∀ a b, Decision (R a b)}
    (rows : DB) : DB :=
  merge_sort R rows.

(** [Limit(n)] *)
Definition Limit (n : nat) (rows : DB) : DB := take n rows.

(** [First(&task)] on an ordered selection: the first row, or
    [ErrRecordNotFound]. *)
Definition First (rows : DB) : Task + error :=
  match rows with
  | r :: _ => inl r
  | [] => inr ErrRecordNotFound
  end.

(** The next primary key: one more than the largest in use. *)
Definition next_id (rows : DB) : N :=
  (1 + foldr N.max 0 (ID <$> rows))%N.

(** [Create(&t)]: the store assigns the key when it is zero, and the
    time stamps that are zero are set to the current instant.  The
    struct handed in is updated in place; it is returned with the table. *)
Definition Create (now : Time) (t : Task) (rows : DB) : DB * Task :=
  let t' := mkTask (if decide (ID t = 0%N) then next_id rows else ID t)
                   (Prompt t) (Status t) (ImagePath t)
                   (if decide (CreatedAt t = 0%Z) then now else CreatedAt t)
                   (if decide (UpdatedAt t = 0%Z) then now else UpdatedAt t) in
  (rows ++ [t'], t').

(** [Save(&t)]: with a zero key it is [Create]; otherwise every column of
    the row with that key is overwritten and [updated_at] is set to the
    current instant, and when no row has the key the record is inserted. *)
Definition Save (now : Time) (t : Task) (rows : DB) : DB * Task :=
  if decide (ID t = 0%N) then Create now t rows
  else
    let t' := with_UpdatedAt now t in
    if decide (ID t ∈ ID <$> rows)
    then ((λ r, if decide (ID r = ID t) then t' else r) <$> rows, t')
    else (rows ++ [mkTask (ID t') (Prompt t') (Status t') (ImagePath t')
                      (if decide (CreatedAt t' = 0%Z) then now else CreatedAt t')
                      (UpdatedAt t')],
          t').

End Gorm.

(** [db.Where("status = ?", "Pending").Order("created_at asc").First(&task)] *)
Definition firstPending (rows : DB) : Task + error :=
  Gorm.First (Gorm.Order Gorm.created_asc_id (Gorm.Where_status "Pending" rows)).

(** [db.Order("created_at desc").Limit(20).Find(&tasks)] *)
Definition recentHistory (rows : DB) : list Task :=
  Gorm.Limit 20 (Gorm.Order Gorm.created_desc rows).

(** ** 2. Wire messages, the collaborator, and what the program does to the world *)

(** [type WSMessage struct]; the field [Type] is written [MsgType]. *)
Record WSMessage := mkMsg { MsgType : string; MsgPrompt : string }.

(** [Data interface{}] holds one task or a slice of tasks. *)
Inductive payload :=
| DataTask (t : Task)
| DataTasks (ts : list Task).

(** [type WSResponse struct]; [json.Marshal] is left abstract, a frame on
    the wire is the response it encodes. *)
Record WSResponse := mkResp { RespType : string; Data : payload }.

#[global] Instance payload_eq_dec : EqDecision payload.
Proof. solve_decision. Defined.
#[global] Instance WSResponse_eq_dec : EqDecision WSResponse.
Proof. solve_decision. Defined.

(** A [*websocket.Conn], by identity. *)
Abbreviation Conn := nat.

(** What [cmd.CombinedOutput()] returns for the python process. *)
Inductive CmdResult :=
| CmdOk (output : string)
| CmdErr (err : string) (output : string).

(** [func runPythonZImage(prompt string, id uint) (string, error)];
    [unix] is [time.Now().Unix()]. *)
Definition runPythonZImage (cmd : CmdResult) (unix : Z)
    (prompt : string) (id : N) : string * option string :=
  let fileName := "task_" +:+ pretty id +:+ "_" +:+ pretty unix +:+ ".png" in
  match cmd with
  | CmdErr err output =>
      ("", Some ("python error: " +:+ err +:+ ", log: " +:+ output))
  | CmdOk _ => (fileName, None)
  end.

Inductive LogLine :=
| LogUpgrade (err : string)                 (* log.Println(err) *)
| LogTxError (e : error)                    (* "Database transaction error: %v" *)
| LogProcessing (id : N) (prompt : string)  (* "Processing Task ID %d: %s" *)
| LogFailed (id : N) (err : string)         (* "Task %d failed: %v" *)
| LogCompleted (id : N)                     (* "Task %d completed" *)
| LogGormError (e : error)                  (* GORM's logger: a statement failed *)
| LogGormSlow.                              (* GORM's logger: a slow statement *)

Inductive Event :=
| EWriteMessage (c : Conn) (msg : WSResponse) (ok : bool)  (* by the dispatcher *)
| EWriteJSON (c : Conn) (msg : WSResponse) (ok : bool)     (* by a session *)
| EClose (c : Conn)
| ESend (msg : WSResponse)                                 (* broadcast <- msg *)
| ERecv (msg : WSResponse)                                 (* msg := <-broadcast *)
| ELog (l : LogLine)
| ESleep (seconds : Z).

#[global] Instance LogLine_eq_dec : EqDecision LogLine.
Proof. solve_decision. Defined.
#[global] Instance Event_eq_dec : EqDecision Event.
Proof. solve_decision. Defined.

(** Where the worker goroutine stands: at the top of its loop, or inside
    [runPythonZImage] with the task it claimed. *)
Inductive WorkerPC :=
| Idle
| Generating (task : Task).

(** The globals [db], [clients] and [broadcast], the goroutines, and the
    trace of effects so far.  [clients] is a Go map used as a set;
    [broadcast] lists the sends waiting on the channel, oldest first;
    [sessions] are the connections whose [serveWs] loop is running. *)
Record State := mkState {
  db : DB;
  clients : gset Conn;
  sessions : gset Conn;
  broadcast : list WSResponse;
  worker : WorkerPC;
  trace : list Event
}.

Definition set_db (rows : DB) (s : State) : State :=
  mkState rows (clients s) (sessions s) (broadcast s) (worker s) (trace s).
Definition set_clients (cl : gset Conn) (s : State) : State :=
  mkState (db s) cl (sessions s) (broadcast s) (worker s) (trace s).
Definition set_sessions (ss : gset Conn) (s : State) : State :=
  mkState (db s) (clients s) ss (broadcast s) (worker s) (trace s).
Definition set_worker (w : WorkerPC) (s : State) : State :=
  mkState (db s) (clients s) (sessions s) (broadcast s) w (trace s).
Definition emit (evs : list Event) (s : State) : State :=
  mkState (db s) (clients s) (sessions s) (broadcast s) (worker s) (trace s ++ evs).

(** [broadcast <- jsonResp] *)
Definition publish (msg : WSResponse) (s : State) : State :=
  mkState (db s) (clients s) (sessions s) (broadcast s ++ [msg]) (worker s)
          (trace s ++ [ESend msg]).

(** [func notifyUpdate(task Task)] *)
Definition notifyUpdate (task : Task) (s : State) : State :=
  publish (mkResp "update" (DataTask task)) s.

(** ** 3. The worker *)

(** Failures of the store in [db.Transaction]: inside the closure, as the
    closure checks them, of the locked read ([first_fault], which also
    stands for a failure to begin) and of the write ([save_fault]); and,
    after the closure has returned [nil], of the commit ([commit_fault]). *)
Record TxFaults := mkFaults {
  first_fault : option string;
  save_fault : option string;
  commit_fault : option string
}.

Definition healthy : TxFaults := mkFaults None None None.

(** The result of [db.Transaction(func(tx) error {...})]: the table, the
    variables [task] and [found], and the error returned. *)
Record TxResult := mkTx {
  tx_db : DB;
  tx_task : Task;
  tx_found : bool;
  tx_err : option error
}.

(** The transaction of [taskWorker]: read the oldest pending row under the
    lock, mark it, write it back.  An error of either statement rolls the
    transaction back.  The closure sets [found = true] before it returns
    [nil], and [db.Transaction] commits after that: when the commit fails,
    [db.Transaction] returns its error, the table is as it was before the
    transaction, and [task] and [found] are as the closure left them. *)
Definition claimTx (now : Time) (io : TxFaults) (rows : DB) : TxResult :=
  match first_fault io with
  | Some m => mkTx rows zeroTask false (Some (ErrStorage m))
  | None =>
      match firstPending rows with
      | inr e => mkTx rows zeroTask false (Some e)
      | inl task =>
          let task := with_Status "Processing" task in
          match save_fault io with
          | Some m => mkTx rows task false (Some (ErrStorage m))
          | None =>
              let r := Gorm.Save now task rows in
              match commit_fault io with
              | Some m => mkTx rows r.2 true (Some (ErrStorage m))
              | None => mkTx r.1 r.2 true None
              end
          end
      end
  end.

(** [taskWorker], from the top of the loop to the call of
    [runPythonZImage], or through the sleep when nothing was found. *)
Definition taskWorker_claim (now : Time) (io : TxFaults) (s : State) : State :=
  match worker s with
  | Generating _ => s
  | Idle =>
      let r := claimTx now io (db s) in
      let s1 := set_db (tx_db r) s in
      let s2 := match tx_err r with
                | Some e =>
                    if decide (e = ErrRecordNotFound) then s1
                    else emit [ELog (LogTxError e)] s1
                | None => s1
                end in
      if tx_found r then
        let task := tx_task r in
        set_worker (Generating task)
          (emit [ELog (LogProcessing (ID task) (Prompt task))]
             (notifyUpdate task s2))
      else emit [ESleep 2] s2
  end.

(** [taskWorker], from the return of [runPythonZImage] to the end of the
    loop body. *)
Definition taskWorker_finish (cmd : CmdResult) (unix : Z) (now : Time)
    (s : State) : State :=
  match worker s with
  | Idle => s
  | Generating task =>
      let '(imagePath, genErr) := runPythonZImage cmd unix (Prompt task) (ID task) in
      let '(task1, line) :=
        match genErr with
        | Some e => (with_Status "Failed" task, LogFailed (ID task) e)
        | None => (with_ImagePath imagePath (with_Status "Completed" task),
                   LogCompleted (ID task))
        end in
      let r := Gorm.Save now task1 (db s) in
      set_worker Idle (notifyUpdate r.2 (set_db r.1 (emit [ELog line] s)))
  end.

(** ** 4. The hub *)

(** The order in which [for client := range clients] visits the map is not
    fixed: [ord] names connections to visit first, in that order, the rest
    follow. *)
Definition visit_order (ord : list Conn) (cl : gset Conn) : list Conn :=
  filter (λ c, c ∈ cl) (remove_dups ord) ++
  filter (λ c, c ∉ ord) (elements cl).

(** The body of the loop over [clients]: write, and on an error close and
    delete.  [failing] are the connections whose write fails. *)
Definition write_client (msg : WSResponse) (failing : gset Conn)
    (acc : gset Conn * list Event) (c : Conn) : gset Conn * list Event :=
  if decide (c ∈ failing)
  then (acc.1 ∖ {[c]}, acc.2 ++ [EWriteMessage c msg false; EClose c])
  else (acc.1, acc.2 ++ [EWriteMessage c msg true]).

(** One turn of the loop of [handleMessages]. *)
Definition handleMessages (ord : list Conn) (failing : gset Conn)
    (s : State) : State :=
  match broadcast s with
  | [] => s
  | msg :: rest =>
      let r := foldl (write_client msg failing) (clients s, [])
                     (visit_order ord (clients s)) in
      mkState (db s) r.1 (sessions s) rest (worker s)
              (trace s ++ ERecv msg :: r.2)
  end.

(** ** 5. A session *)

(** What [ws.ReadJSON(&msg)] returns. *)
Inductive ReadResult :=
| ReadOk (msg : WSMessage)
| ReadErr.

(** [serveWs] up to the loop: the upgrade succeeded, the connection is
    registered.  Every upgrade makes a new connection, so nothing happens
    for a connection whose session is running. *)
Definition serveWs_connect (c : Conn) (s : State) : State :=
  if decide (c ∈ sessions s) then s
  else set_sessions ({[c]} ∪ sessions s) (set_clients ({[c]} ∪ clients s) s).

(** One turn of the loop of [serveWs]; [write_ok] is whether [ws.WriteJSON]
    succeeds, should it be called. *)
Definition serveWs_read (c : Conn) (r : ReadResult) (now : Time)
    (write_ok : bool) (s : State) : State :=
  if decide (c ∈ sessions s) then
    match r with
    | ReadErr =>
        emit [EClose c]
          (set_sessions (sessions s ∖ {[c]}) (set_clients (clients s ∖ {[c]}) s))
    | ReadOk msg =>
        if decide (MsgType msg = "get_history") then
          let tasks := recentHistory (db s) in
          emit [EWriteJSON c (mkResp "history" (DataTasks tasks)) write_ok] s
        else if decide (MsgType msg = "create_task") then
          let r := Gorm.Create now (mkTask 0 (MsgPrompt msg) "Pending" "" 0%Z 0%Z)
                               (db s) in
          publish (mkResp "new_task" (DataTask r.2)) (set_db r.1 s)
        else s
    end
  else s.

(** ** 6. The program as a transition system *)

Inductive Action :=
| AConnect (c : Conn)
| AUpgradeFail (err : string)
| ARead (c : Conn) (r : ReadResult) (now : Time) (write_ok : bool)
| ADispatch (ord : list Conn) (failing : gset Conn)
| AClaim (now : Time) (io : TxFaults)
| AFinish (cmd : CmdResult) (unix : Z) (now : Time).

Definition step (a : Action) (s : State) : State :=
  match a with
  | AConnect c => serveWs_connect c s
  | AUpgradeFail err => emit [ELog (LogUpgrade err)] s
  | ARead c r now write_ok => serveWs_read c r now write_ok s
  | ADispatch ord failing => handleMessages ord failing s
  | AClaim now io => taskWorker_claim now io s
  | AFinish cmd unix now => taskWorker_finish cmd unix now s
  end.

Fixpoint run (acts : list Action) (s : State) : State :=
  match acts with
  | [] => s
  | a :: acts => run acts (step a s)
  end.

(** [main]: the store as found on disk, nobody connected. *)
Definition init (rows : DB) : State := mkState rows ∅ ∅ [] Idle [].

(** ** 7. Several callers of the claim step *)

Abbreviation Caller := nat.

(** One pass of a caller through the transaction of [taskWorker]. *)
Inductive ClaimCall :=
| Call (w : Caller) (now : Time) (io : TxFaults).

(** Concurrent callers of the transaction: the store runs transactions
    one at a time, so the callers go through it one after the other, in
    the order the store serialises them.  The result lists the tasks
    handed out, with who got them. *)
Fixpoint claimNext_calls (calls : list ClaimCall) (rows : DB)
    : list (Caller * Task) * DB :=
  match calls with
  | [] => ([], rows)
  | Call w now io :: calls =>
      let r := claimTx now io rows in
      let rest := claimNext_calls calls (tx_db r) in
      (if tx_found r then (w, tx_task r) :: rest.1 else rest.1, rest.2)
  end.

Module ServerGo.

(** The claim step of [taskWorker] in [server.go]: two statements on [db],
    outside any transaction.
    [SFirst]: [result := db.Where(...).Order(...).First(&task)];
    [SSave]: [task.Status = "Processing"; db.Save(&task)], after which the
    caller goes on with [task]. *)
Inductive Stmt :=
| SFirst (w : Caller)
| SSave (w : Caller) (now : Time).

(** The table, the variable [task] of every caller that has read a row and
    not yet written it, and the tasks handed out. *)
Record Callers := mkCallers {
  rows : DB;
  locals : gmap Caller Task;
  claimed : list (Caller * Task)
}.

Definition exec (st : Stmt) (cs : Callers) : Callers :=
  match st with
  | SFirst w =>
      match locals cs !! w with
      | Some _ => cs
      | None =>
          match firstPending (rows cs) with
          | inl task => mkCallers (rows cs) (<[w := task]> (locals cs)) (claimed cs)
          | inr _ => cs
          end
      end
  | SSave w now =>
      match locals cs !! w with
      | None => cs
      | Some task =>
          let r := Gorm.Save now (with_Status "Processing" task) (rows cs) in
          mkCallers r.1 (delete w (locals cs)) (claimed cs ++ [(w, r.2)])
      end
  end.

Definition exec_all (sts : list Stmt) (cs : Callers) : Callers :=
  foldl (λ cs st, exec st cs) cs sts.

End ServerGo.

(** ** 8. Vocabulary of the properties *)

(** *** The table *)

(** Primary keys as the store hands them out: distinct and positive. *)
Definition wf_db (rows : DB) : Prop :=
  NoDup (ID <$> rows) ∧ Forall (λ r, ID r ≠ 0%N) rows.

#[global] Instance wf_db_dec rows : Decision (wf_db rows).
Proof. unfold wf_db. apply _. Defined.

Definition pending (r : Task) : Prop := Status r = "Pending".

(** The keys of the Pending rows, in table order. *)
Definition pending_ids (rows : DB) : list N := ID <$> filter pending rows.

(** The row with primary key [i]. *)
Definition lookup_id (i : N) (rows : DB) : option Task :=
  head (filter (λ r, ID r = i) rows).

Definition status_of (i : N) (rows : DB) : option string :=
  Status <$> lookup_id i rows.

(** [(createdAt, id)] of [a] strictly below that of [b]. *)
Definition key_lt (a b : Task) : Prop :=
  (CreatedAt a < CreatedAt b)%Z ∨
  (CreatedAt a = CreatedAt b ∧ (ID a < ID b)%N).

(** [(createdAt, id)] of [a] below that of [b], or the same. *)
Definition key_le (a b : Task) : Prop :=
  key_lt a b ∨ (CreatedAt a = CreatedAt b ∧ ID a = ID b).

(** Rows that are not Completed carry no result path. *)
Definition unset_ok (rows : DB) : Prop :=
  ∀ r, r ∈ rows → Status r ≠ "Completed" → ImagePath r = "".

(** *** The life cycle *)

(** The edges of the life cycle of a task. *)
Definition status_edge (a b : string) : Prop :=
  (a = "Pending" ∧ b = "Processing") ∨
  (a = "Processing" ∧ (b = "Completed" ∨ b = "Failed")).

Definition terminal (a : string) : Prop := a = "Completed" ∨ a = "Failed".

(** How the status of one task may differ between two consecutive states:
    no row stays no row or becomes a Pending row, a row keeps its status
    or moves along an edge of the life cycle, and no row goes away. *)
Definition lifecycle_step (before after : option string) : Prop :=
  match before, after with
  | None, None => True
  | None, Some b => b = "Pending"
  | Some a, Some b => a = b ∨ status_edge a b
  | Some _, None => False
  end.

(** *** States *)

(** The worker holds the row it claimed: the table has it, marked
    [Processing]. *)
Definition worker_ok (s : State) : Prop :=
  match worker s with
  | Idle => True
  | Generating task =>
      ID task ≠ 0%N ∧ lookup_id (ID task) (db s) = Some task ∧
      Status task = "Processing"
  end.

Definition consistent (s : State) : Prop := wf_db (db s) ∧ worker_ok s.

#[global] Instance worker_ok_dec s : Decision (worker_ok s).
Proof. unfold worker_ok. destruct (worker s); apply _. Defined.
#[global] Instance consistent_dec s : Decision (consistent s).
Proof. unfold consistent. apply _. Defined.

(** What the record [task] of the worker has to do with the row [row] of
    its key: it is that row, marked [Processing]; or, after a commit that
    failed, the row is still [Pending] and the record is the row as the
    closure marked it. *)
Definition holds (task row : Task) : Prop :=
  (row = task ∧ Status task = "Processing") ∨
  (Status row = "Pending" ∧
   task = with_UpdatedAt (UpdatedAt task) (with_Status "Processing" row)).

(** The worker holds a record of a row of the table, whether or not the
    mark of the row was committed. *)
Definition worker_sound (s : State) : Prop :=
  match worker s with
  | Idle => True
  | Generating task =>
      ID task ≠ 0%N ∧ ∃ row, lookup_id (ID task) (db s) = Some row ∧ holds task row
  end.

Definition sound (s : State) : Prop := wf_db (db s) ∧ worker_sound s.

(** The commit of the transaction of this action succeeds. *)
Definition commit_ok (a : Action) : Prop :=
  match a with
  | AClaim _ io => commit_fault io = None
  | _ => True
  end.

#[global] Instance commit_ok_dec a : Decision (commit_ok a).
Proof. destruct a; apply _. Defined.

(** The states the program goes through on [acts], the first one apart. *)
Fixpoint states (acts : list Action) (s : State) : list State :=
  match acts with
  | [] => []
  | a :: acts => step a s :: states acts (step a s)
  end.

Definition is_dispatch (a : Action) : Prop :=
  match a with
  | ADispatch _ _ => True
  | _ => False
  end.

Definition healthy_call (cl : ClaimCall) : Prop :=
  match cl with Call _ _ io => io = healthy end.

Definition commit_ok_call (cl : ClaimCall) : Prop :=
  match cl with Call _ _ io => commit_fault io = None end.

#[global] Instance commit_ok_call_dec cl : Decision (commit_ok_call cl).
Proof. destruct cl; apply _. Defined.

(** What a step may do to the table and to the worker: leave them alone,
    append a fresh Pending row, mark a Pending row for the idle worker, or
    write the final record of the row the worker holds. *)
Inductive db_change (s s' : State) : Prop :=
| change_none :
    db s' = db s → worker s' = worker s → db_change s s'
| change_create prompt now :
    db s' = db s ++ [mkTask (Gorm.next_id (db s)) prompt "Pending" "" now now] →
    worker s' = worker s → db_change s s'
| change_claim t now :
    worker s = Idle → t ∈ db s → pending t →
    db s' = (λ r, if decide (ID r = ID t)
                  then with_UpdatedAt now (with_Status "Processing" t) else r) <$> db s →
    worker s' = Generating (with_UpdatedAt now (with_Status "Processing" t)) →
    db_change s s'
| change_finish task final :
    worker s = Generating task → ID final = ID task →
    (Status final = "Failed" ∧ ImagePath final = ImagePath task ∨
     Status final = "Completed") →
    db s' = (λ r, if decide (ID r = ID task) then final else r) <$> db s →
    worker s' = Idle → db_change s s'.

(** What a claim whose commit fails does besides: the table is as it was,
    and the idle worker goes on with the marked record of a row that is
    still Pending. *)
Definition claim_lost (s s' : State) : Prop :=
  ∃ t now,
    worker s = Idle ∧ t ∈ db s ∧ pending t ∧ db s' = db s ∧
    worker s' = Generating (with_UpdatedAt now (with_Status "Processing" t)).

(** *** Traces *)

(** Projections of a trace: the frames sent on [broadcast], the frames the
    dispatcher took from it, the frames the dispatcher wrote to [c], and
    those of them whose write succeeded. *)
Definition sends (tr : list Event) : list WSResponse :=
  omap (λ e, match e with ESend m => Some m | _ => None end) tr.

Definition recvs (tr : list Event) : list WSResponse :=
  omap (λ e, match e with ERecv m => Some m | _ => None end) tr.

Definition writes_to (c : Conn) (tr : list Event) : list WSResponse :=
  omap (λ e, match e with
             | EWriteMessage c' m _ => if decide (c' = c) then Some m else None
             | _ => None
             end) tr.

Definition delivered_to (c : Conn) (tr : list Event) : list WSResponse :=
  omap (λ e, match e with
             | EWriteMessage c' m true => if decide (c' = c) then Some m else None
             | _ => None
             end) tr.

(** What the loop body of [handleMessages] adds to the trace for one
    connection. *)
Definition write_events (msg : WSResponse) (failing : gset Conn) (c : Conn)
    : list Event :=
  if decide (c ∈ failing)
  then [EWriteMessage c msg false; EClose c]
  else [EWriteMessage c msg true].

(** The frame [notifyUpdate] sends for a task. *)
Definition update_of (task : Task) : WSResponse := mkResp "update" (DataTask task).

(** The frames the program sends on [broadcast]. *)
Definition broadcastable (m : WSResponse) : Prop :=
  RespType m = "update" ∨ RespType m = "new_task".

(** ** 9. Sample data *)

Definition rows_sample : DB :=
  [mkTask 1 "a" "Completed" "task_1_5.png" 5%Z 9%Z;
   mkTask 3 "c" "Pending" "" 7%Z 7%Z;
   mkTask 2 "b" "Pending" "" 7%Z 7%Z;
   mkTask 4 "d" "Pending" "" 8%Z 8%Z].

Definition rows_done : DB := [mkTask 1 "a" "Completed" "task_1_5.png" 5%Z 9%Z].

(** The sample store with two connections registered. *)
Definition s_conn : State := run [AConnect 1; AConnect 2] (init rows_sample).

(** The sample store after the worker has claimed its oldest Pending row
    and the dispatcher has passed the update on. *)
Definition s_busy : State := run [AClaim 10%Z healthy; ADispatch [] ∅] s_conn.
Definition task_busy : Task := mkTask 2 "b" "Processing" "" 7%Z 10%Z.

(** Two connections on an empty store; then one task created and claimed,
    and two turns of the dispatcher, the second with a failing write to
    connection 2. *)
Definition s_two : State := run [AConnect 1; AConnect 2] (init []).
Definition acts_two : list Action :=
  [ARead 1 (ReadOk (mkMsg "create_task" "dog")) 100%Z true;
   AClaim 101%Z healthy; ADispatch [2; 1] ∅; ADispatch [] {[2]}].

(** One Pending row, and two callers of the claim step of [server.go] whose
    statements interleave: both read before either writes. *)
Definition rows_one : DB := [mkTask 1 "cat" "Pending" "" 5%Z 5%Z].
Definition race : list ServerGo.Stmt :=
  [ServerGo.SFirst 1; ServerGo.SFirst 2; ServerGo.SSave 1 10%Z; ServerGo.SSave 2 11%Z].

(** A store whose commit fails; a claim on it, and the end of the
    generation. *)
Definition lost_commit : TxFaults := mkFaults None None (Some "disk I/O error").
Definition acts_lost : list Action :=
  [AClaim 10%Z lost_commit; AFinish (CmdOk "") 171234%Z 12%Z].

(** Closes a decidable goal by evaluation. *)
Ltac by_compute :=
  match goal with
  | |- ?P => refine (@bool_decide_unpack P _ _); vm_compute; exact I
  end.

(** ** 10. More of the program *)

(** The name [runPythonZImage] gives the picture of task [id] made at
    second [unix]: [fmt.Sprintf("task_%d_%d.png", id, time.Now().Unix())]. *)
Definition fileName (id : N) (unix : Z) : string :=
  "task_" +:+ pretty id +:+ "_" +:+ pretty unix +:+ ".png".

(** A result path is there exactly on the Completed rows. *)
Definition path_ok (rows : DB) : Prop :=
  ∀ r, r ∈ rows → (Status r = "Completed" ↔ ImagePath r ≠ "").

(** The rows marked Processing, and whether the row of the task the
    worker holds is one of them. *)
Definition processing (rows : DB) : list Task :=
  filter (λ r, Status r = "Processing") rows.


(** One turn of the worker that finds a task: the clock at the claim, the
    result of the python process, the second and the clock at the end. *)
Record Round := mkRound {
  claim_at : Time;
  result : CmdResult;
  made_at : Z;
  saved_at : Time
}.

(** The worker alone, on a store that answers: a claim and the end of the
    generation, once per round. *)
Definition work (rounds : list Round) : list Action :=
  rounds ≫= λ o, [AClaim (claim_at o) healthy;
                  AFinish (result o) (made_at o) (saved_at o)].

Module ServerGoLoop.

(** [server.go] opens the store with [&gorm.Config{}], which keeps GORM's
    default logger; the current server sets [logger.Silent].  For every
    statement the default logger writes a line when the statement returns
    an error, [record not found] included, and otherwise a warning when
    the statement took 200ms or more ([slow]). *)
Definition gorm_trace (err : option error) (slow : bool) : list Event :=
  match err with
  | Some e => [ELog (LogGormError e)]
  | None => if slow then [ELog LogGormSlow] else []
  end.

(** [taskWorker] of [server.go], from the top of the loop to the call of
    [runPythonZImage], or through the sleep: the read, and when it gave no
    error the mark, the notification and the log line.  The program logs
    no error itself, and drops the result of [db.Save].  [fault] is a
    failure of the store at the read; [slow_first] and [slow_save] say
    whether the two statements were slow. *)
Definition taskWorker_claim (now : Time) (fault : option string)
    (slow_first slow_save : bool) (s : State) : State :=
  match worker s with
  | Generating _ => s
  | Idle =>
      match fault with
      | Some m => emit (gorm_trace (Some (ErrStorage m)) slow_first ++ [ESleep 2]) s
      | None =>
          match firstPending (db s) with
          | inr e => emit (gorm_trace (Some e) slow_first ++ [ESleep 2]) s
          | inl task =>
              let s1 := emit (gorm_trace None slow_first) s in
              let r := Gorm.Save now (with_Status "Processing" task) (db s1) in
              let s2 := emit (gorm_trace None slow_save) (set_db r.1 s1) in
              set_worker (Generating r.2)
                (emit [ELog (LogProcessing (ID r.2) (Prompt r.2))]
                   (notifyUpdate r.2 s2))
          end
      end
  end.

End ServerGoLoop.

(** The lines of GORM's logger, and a trace without them. *)
Definition is_gorm_line (e : Event) : Prop :=
  match e with
  | ELog (LogGormError _) | ELog LogGormSlow => True
  | _ => False
  end.

#[global] Instance is_gorm_line_dec e : Decision (is_gorm_line e).
Proof. destruct e as [| | | | |[]|]; apply _. Defined.

Definition own_events (tr : list Event) : list Event :=
  filter (λ e, ¬ is_gorm_line e) tr.

(** [os.Getenv]: the value of the variable, empty when it is not set. *)
Definition Getenv (env : gmap string string) (k : string) : string :=
  default "" (env !! k).

(** What [main] reads from the environment: the address it listens on,
    the two roots it hands to the web server, and the database file. *)
Record Config := mkConfig {
  addr : string;
  documentRoot : string;
  templateRoot : string;
  dbFile : string
}.

Definition main_config (env : gmap string string) : Config :=
  let port := Getenv env "PORT" in
  let port := if decide (port = "") then "80" else port in
  let documentRoot := Getenv env "DocumentRoot" in
  let documentRoot := if decide (documentRoot = "") then "www/html" else documentRoot in
  let templateRoot := Getenv env "TemplateRoot" in
  let templateRoot := if decide (templateRoot = "") then "www/template" else templateRoot in
  mkConfig (":" +:+ port) documentRoot templateRoot (Getenv env "DBPath" +:+ "queue.db").

(** [outputDir] of [runPythonZImage]: [os.Getenv("DocumentRoot") + "/images"]. *)
Definition outputDir (env : gmap string string) : string :=
  Getenv env "DocumentRoot" +:+ "/images".

(** A string without the character [_]. *)
Fixpoint no_underscore (s : string) : Prop :=
  match s with
  | EmptyString => True
  | String c s' => c ≠ "_"%char ∧ no_underscore s'
  end.

(** * Proofs *)

(** ** Facts about the store *)

#[global] Instance created_asc_id_total : Total Gorm.created_asc_id.
Proof. intros a b. unfold Gorm.created_asc_id. lia. Qed.
#[global] Instance created_asc_id_trans : Transitive Gorm.created_asc_id.
Proof. intros a b c. unfold Gorm.created_asc_id. lia. Qed.
#[global] Instance created_desc_total : Total Gorm.created_desc.
Proof. intros a b. unfold Gorm.created_desc. lia. Qed.
#[global] Instance created_desc_trans : Transitive Gorm.created_desc.
Proof. intros a b c. unfold Gorm.created_desc. lia. Qed.

Lemma firstPending_inl rows t :
  firstPending rows = inl t →
  t ∈ rows ∧ pending t ∧
  ∀ r, r ∈ rows → pending r → Gorm.created_asc_id t r.
Proof.
  unfold firstPending, Gorm.First, Gorm.Order, Gorm.Where_status.
  set (sel := filter (λ r, Status r = "Pending") rows).
  pose proof (merge_sort_Permutation Gorm.created_asc_id sel) as Hp.
  pose proof (StronglySorted_merge_sort Gorm.created_asc_id sel) as Hs.
  destruct (merge_sort Gorm.created_asc_id sel) as [|x l] eqn:E; [done|].
  intros [= ->].
  assert (Hin : ∀ r, r ∈ t :: l ↔ r ∈ rows ∧ pending r).
  { intros r. rewrite Hp. unfold sel. by rewrite list_elem_of_filter, (comm and). }
  destruct (proj1 (Hin t)) as [Ht1 Ht2]; [by left|].
  split_and!; [done..|].
  intros r Hr Hpr.
  assert (r ∈ t :: l) as [->|Hl]%elem_of_cons by (apply Hin; done).
  - destruct (total Gorm.created_asc_id t t); done.
  - apply StronglySorted_inv in Hs as [_ Hall].
    rewrite Forall_forall in Hall. by apply Hall.
Qed.

Lemma firstPending_inr rows e :
  firstPending rows = inr e →
  e = ErrRecordNotFound ∧ ∀ r, r ∈ rows → ¬ pending r.
Proof.
  unfold firstPending, Gorm.First, Gorm.Order, Gorm.Where_status.
  set (sel := filter (λ r, Status r = "Pending") rows).
  pose proof (merge_sort_Permutation Gorm.created_asc_id sel) as Hp.
  destruct (merge_sort Gorm.created_asc_id sel) as [|x l] eqn:E; [|done].
  intros [= <-]. split; [done|]. intros r Hr Hpr.
  assert (r ∈ sel) as Hsel by (by apply list_elem_of_filter).
  rewrite <- Hp in Hsel. by apply elem_of_nil in Hsel.
Qed.

Lemma firstPending_some rows r :
  r ∈ rows → pending r → ∃ t, firstPending rows = inl t.
Proof.
  intros Hr Hp. destruct (firstPending rows) as [t|e] eqn:E; [by eexists|].
  apply firstPending_inr in E as [_ Hn]. by destruct (Hn r).
Qed.

Lemma lookup_id_Some i rows r :
  lookup_id i rows = Some r → r ∈ rows ∧ ID r = i.
Proof.
  unfold lookup_id. intros H.
  assert (r ∈ filter (λ r, ID r = i) rows) as Hin.
  { destruct (filter _ rows); simplify_eq/=. by left. }
  by apply list_elem_of_filter in Hin as [? ?].
Qed.

Lemma lookup_id_None i rows :
  lookup_id i rows = None ↔ i ∉ ID <$> rows.
Proof.
  unfold lookup_id. induction rows as [|r rows IH].
  - split; [intros _; apply not_elem_of_nil|done].
  - rewrite filter_cons, fmap_cons, not_elem_of_cons. case_decide.
    + split; [done|]. intros [? _]. congruence.
    + rewrite IH. split; [intros ?; split; congruence|tauto].
Qed.

Lemma lookup_id_elem_of rows r :
  NoDup (ID <$> rows) → r ∈ rows → lookup_id (ID r) rows = Some r.
Proof.
  unfold lookup_id. induction rows as [|x rows IH].
  - intros _ H. by apply elem_of_nil in H.
  - rewrite fmap_cons. intros [Hx Hnd]%NoDup_cons [->|Hin]%elem_of_cons.
    + rewrite filter_cons. by rewrite decide_True.
    + rewrite filter_cons. rewrite decide_False; [by apply IH|].
      intros Heq. apply Hx. rewrite Heq. by apply list_elem_of_fmap_2.
Qed.

Lemma lookup_id_app i rows1 rows2 :
  lookup_id i (rows1 ++ rows2) =
  match lookup_id i rows1 with
  | Some r => Some r
  | None => lookup_id i rows2
  end.
Proof.
  unfold lookup_id. rewrite filter_app.
  by destruct (filter _ rows1).
Qed.

Lemma lookup_id_replace i k t' (rows : DB) :
  ID t' = k →
  lookup_id i ((λ r, if decide (ID r = k) then t' else r) <$> rows) =
  (λ r, if decide (ID r = k) then t' else r) <$> lookup_id i rows.
Proof.
  intros Hk. unfold lookup_id. induction rows as [|r rows IH]; [done|].
  rewrite fmap_cons, !filter_cons.
  assert (ID (if decide (ID r = k) then t' else r) = ID r) as ->
    by (case_decide; congruence).
  case_decide; [done|]. apply IH.
Qed.

Lemma ids_replace k t' (rows : DB) :
  ID t' = k →
  ID <$> ((λ r, if decide (ID r = k) then t' else r) <$> rows) = ID <$> rows.
Proof.
  intros Hk. rewrite <- list_fmap_compose. apply list_fmap_ext.
  intros _ r _. simpl. case_decide; congruence.
Qed.

Lemma next_id_above rows r : r ∈ rows → (ID r < Gorm.next_id rows)%N.
Proof.
  intros Hin. apply (list_elem_of_fmap_2 ID) in Hin.
  unfold Gorm.next_id. revert Hin. generalize (ID r) (ID <$> rows).
  intros i ids. induction ids as [|x ids IH]; simpl.
  - intros H. by apply elem_of_nil in H.
  - intros [->|Hin]%elem_of_cons; [lia|]. specialize (IH Hin). lia.
Qed.

Lemma next_id_fresh rows : Gorm.next_id rows ∉ ID <$> rows.
Proof.
  intros (r & Heq & Hin)%list_elem_of_fmap.
  apply next_id_above in Hin. lia.
Qed.

Lemma next_id_pos rows : Gorm.next_id rows ≠ 0%N.
Proof. unfold Gorm.next_id. lia. Qed.

(** [Save] of a record whose key is in the table. *)
Lemma Save_update now t rows :
  ID t ≠ 0%N → ID t ∈ ID <$> rows →
  Gorm.Save now t rows =
  ((λ r, if decide (ID r = ID t) then with_UpdatedAt now t else r) <$> rows,
   with_UpdatedAt now t).
Proof.
  intros Hz Hin. unfold Gorm.Save.
  rewrite decide_False by done. simpl. by rewrite decide_True.
Qed.

Lemma Save_update_lookup now t rows i :
  ID t ≠ 0%N → ID t ∈ ID <$> rows →
  lookup_id i (Gorm.Save now t rows).1 =
  if decide (i = ID t) then Some (with_UpdatedAt now t) else lookup_id i rows.
Proof.
  intros Hz Hin. rewrite Save_update by done. simpl fst.
  rewrite lookup_id_replace by done. case_decide as Hi.
  - subst i. destruct (lookup_id (ID t) rows) as [r|] eqn:E.
    + apply lookup_id_Some in E as [_ E]. simpl. by rewrite decide_True.
    + by apply lookup_id_None in E.
  - destruct (lookup_id i rows) as [r|] eqn:E; [|done].
    apply lookup_id_Some in E as [_ E]. simpl.
    rewrite decide_False; [done|]. congruence.
Qed.

Lemma Save_update_ids now t rows :
  ID t ≠ 0%N → ID t ∈ ID <$> rows →
  ID <$> (Gorm.Save now t rows).1 = ID <$> rows.
Proof.
  intros Hz Hin. rewrite Save_update by done. simpl fst.
  by apply ids_replace.
Qed.

Lemma Save_update_wf now t rows :
  ID t ≠ 0%N → ID t ∈ ID <$> rows →
  wf_db rows → wf_db (Gorm.Save now t rows).1.
Proof.
  intros Hz Hin [Hnd Hpos]. split; [by rewrite Save_update_ids|].
  rewrite Save_update by done. simpl fst.
  apply Forall_fmap. eapply Forall_impl; [exact Hpos|].
  intros r Hr. simpl. by case_decide.
Qed.

Lemma Create_wf now t rows :
  ID t = 0%N → wf_db rows → wf_db (Gorm.Create now t rows).1.
Proof.
  intros Hz [Hnd Hpos]. unfold Gorm.Create. simpl fst.
  rewrite decide_True by done. split.
  - rewrite fmap_app. simpl. apply NoDup_app. split_and!; [done| |apply NoDup_singleton].
    intros i Hi ->%list_elem_of_singleton. by apply next_id_fresh in Hi.
  - apply Forall_app. split; [done|]. apply Forall_singleton. simpl.
    apply next_id_pos.
Qed.

Lemma Create_lookup now t rows i :
  ID t = 0%N →
  lookup_id i (Gorm.Create now t rows).1 =
  if decide (i = Gorm.next_id rows) then Some (Gorm.Create now t rows).2
  else lookup_id i rows.
Proof.
  intros Hz. unfold Gorm.Create. simpl fst. simpl snd.
  rewrite decide_True by done. rewrite lookup_id_app.
  match goal with |- context [ [?x] ] => generalize (eq_refl (ID x)); generalize x at 2 3 4 end.
  simpl. intros t' Ht'.
  destruct (decide (i = Gorm.next_id rows)) as [Hi|Hi].
  - subst i. pose proof (next_id_fresh rows) as Hf.
    apply lookup_id_None in Hf. rewrite Hf.
    unfold lookup_id. rewrite filter_cons. by rewrite decide_True.
  - destruct (lookup_id i rows); [done|].
    unfold lookup_id. rewrite filter_cons. rewrite decide_False; [done|congruence].
Qed.

(** ** The claim step *)

Lemma claimTx_found now (rows : DB) t :
  wf_db rows → firstPending rows = inl t →
  claimTx now healthy rows =
  mkTx ((λ r, if decide (ID r = ID t)
              then with_UpdatedAt now (with_Status "Processing" t) else r) <$> rows)
       (with_UpdatedAt now (with_Status "Processing" t)) true None.
Proof.
  intros [Hnd Hpos] Hf. unfold claimTx. simpl. rewrite Hf.
  apply firstPending_inl in Hf as (Hin & _ & _).
  rewrite Save_update; [done| |].
  - simpl. rewrite Forall_forall in Hpos. by apply Hpos.
  - simpl. by apply list_elem_of_fmap_2.
Qed.

(** C3 — FIFO claim order with tie-break.  Whenever the table has a
    Pending row, the transaction of [taskWorker] finds one and marks it
    Processing, and the row it takes is the Pending row with the smallest
    pair (createdAt, id): every other Pending row has a strictly larger
    pair, and among the Pending rows with the same createdAt it has the
    smallest id. *)
Theorem claim_fifo_tiebreak now (rows : DB) :
  wf_db rows →
  (∃ r, r ∈ rows ∧ pending r) →
  ∃ t, t ∈ rows ∧ pending t ∧
       (∀ r, r ∈ rows → pending r → r ≠ t → key_lt t r) ∧
       (∀ r, r ∈ rows → pending r → CreatedAt r = CreatedAt t → (ID t ≤ ID r)%N) ∧
       firstPending rows = inl t ∧
       tx_found (claimTx now healthy rows) = true ∧
       tx_err (claimTx now healthy rows) = None ∧
       tx_task (claimTx now healthy rows) =
         with_UpdatedAt now (with_Status "Processing" t) ∧
       lookup_id (ID t) (tx_db (claimTx now healthy rows)) =
         Some (with_UpdatedAt now (with_Status "Processing" t)).
Proof.
  intros Hwf (r0 & Hr0 & Hp0).
  destruct (firstPending_some rows r0 Hr0 Hp0) as [t Hf].
  pose proof (firstPending_inl _ _ Hf) as (Hin & Hp & Hmin).
  exists t. rewrite (claimTx_found now rows t Hwf Hf). simpl.
  split_and!; try done.
  - intros r Hr Hpr Hne. destruct (Hmin r Hr Hpr) as [Hlt|[Heq Hle]]; [by left|].
    right. split; [done|].
    assert (ID t ≠ ID r); [|lia].
    intros Hid. apply Hne. destruct Hwf as [Hnd _].
    pose proof (lookup_id_elem_of rows r Hnd Hr) as H1.
    pose proof (lookup_id_elem_of rows t Hnd Hin) as H2.
    rewrite Hid in H2. congruence.
  - intros r Hr Hpr Heq. destruct (Hmin r Hr Hpr) as [Hlt|[_ Hle]]; [lia|done].
  - rewrite lookup_id_replace by done.
    destruct Hwf as [Hnd _]. rewrite (lookup_id_elem_of rows t Hnd Hin).
    simpl. by rewrite decide_True.
Qed.

Lemma claim_fifo_tiebreak_witness :
  ∃ t, t ∈ rows_sample ∧ pending t ∧
       (∀ r, r ∈ rows_sample → pending r → r ≠ t → key_lt t r) ∧
       (∀ r, r ∈ rows_sample → pending r → CreatedAt r = CreatedAt t → (ID t ≤ ID r)%N) ∧
       firstPending rows_sample = inl t ∧
       tx_found (claimTx 10%Z healthy rows_sample) = true ∧
       tx_err (claimTx 10%Z healthy rows_sample) = None ∧
       tx_task (claimTx 10%Z healthy rows_sample) =
         with_UpdatedAt 10%Z (with_Status "Processing" t) ∧
       lookup_id (ID t) (tx_db (claimTx 10%Z healthy rows_sample)) =
         Some (with_UpdatedAt 10%Z (with_Status "Processing" t)).
Proof.
  apply (claim_fifo_tiebreak 10%Z rows_sample).
  - by_compute.
  - exists (mkTask 3 "c" "Pending" "" 7%Z 7%Z). split; [by_compute|reflexivity].
Defined.

Example firstPending_sample :
  firstPending rows_sample = inl (mkTask 2 "b" "Pending" "" 7%Z 7%Z).
Proof. vm_compute. reflexivity. Qed.

(** ** The history query *)

Lemma recentHistory_spec (rows : DB) :
  length (recentHistory rows) = min 20 (length rows) ∧
  StronglySorted Gorm.created_desc (recentHistory rows) ∧
  ∃ rest, recentHistory rows ++ rest ≡ₚ rows ∧
          ∀ t r, t ∈ recentHistory rows → r ∈ rest →
                 (CreatedAt r ≤ CreatedAt t)%Z.
Proof.
  unfold recentHistory, Gorm.Limit, Gorm.Order.
  pose proof (merge_sort_Permutation Gorm.created_desc rows) as Hp.
  pose proof (StronglySorted_merge_sort Gorm.created_desc rows) as Hs.
  set (l := merge_sort Gorm.created_desc rows) in *.
  rewrite <- (take_drop 20 l) in Hs.
  split_and!.
  - rewrite length_take. f_equal. by rewrite Hp.
  - by eapply StronglySorted_app_1_l.
  - exists (drop 20 l). split; [by rewrite take_drop|].
    intros t r Ht Hr.
    apply (StronglySorted_app_1_elem_of _ _ _ _ _ Hs Ht Hr).
Qed.

Lemma serveWs_get_history c msg now ok s :
  c ∈ sessions s → MsgType msg = "get_history" →
  serveWs_read c (ReadOk msg) now ok s =
  emit [EWriteJSON c (mkResp "history" (DataTasks (recentHistory (db s)))) ok] s.
Proof.
  intros Hc Hm. unfold serveWs_read.
  rewrite decide_True by done. by rewrite decide_True.
Qed.

(** C6 — History bound and order.  The reply to a get_history request
    carries at most 20 tasks, sorted by createdAt with the newest first;
    they are rows of the table, and no row left out is newer than one
    that is returned. *)
Theorem history_bound_order c msg now ok s :
  c ∈ sessions s → MsgType msg = "get_history" →
  ∃ tasks rest,
    step (ARead c (ReadOk msg) now ok) s =
      emit [EWriteJSON c (mkResp "history" (DataTasks tasks)) ok] s ∧
    (length tasks ≤ 20)%nat ∧
    length tasks = min 20 (length (db s)) ∧
    StronglySorted (λ a b, (CreatedAt b ≤ CreatedAt a)%Z) tasks ∧
    tasks ++ rest ≡ₚ db s ∧
    ∀ t r, t ∈ tasks → r ∈ rest → (CreatedAt r ≤ CreatedAt t)%Z.
Proof.
  intros Hc Hm.
  destruct (recentHistory_spec (db s)) as (Hlen & Hs & rest & Hperm & Hnew).
  exists (recentHistory (db s)), rest. simpl.
  rewrite serveWs_get_history by done.
  split_and!; try done. lia.
Qed.

Lemma history_bound_order_witness :
  ∃ tasks rest,
    step (ARead 1 (ReadOk (mkMsg "get_history" "")) 50%Z true)
         (step (AConnect 1) (init rows_sample)) =
      emit [EWriteJSON 1 (mkResp "history" (DataTasks tasks)) true]
           (step (AConnect 1) (init rows_sample)) ∧
    (length tasks ≤ 20)%nat ∧
    length tasks = min 20 (length (db (step (AConnect 1) (init rows_sample)))) ∧
    StronglySorted (λ a b, (CreatedAt b ≤ CreatedAt a)%Z) tasks ∧
    tasks ++ rest ≡ₚ db (step (AConnect 1) (init rows_sample)) ∧
    ∀ t r, t ∈ tasks → r ∈ rest → (CreatedAt r ≤ CreatedAt t)%Z.
Proof.
  apply (history_bound_order 1 (mkMsg "get_history" "") 50%Z true
           (step (AConnect 1) (init rows_sample))).
  - by_compute.
  - reflexivity.
Defined.

Example recentHistory_sample :
  ID <$> recentHistory rows_sample = [4; 3; 2; 1]%N.
Proof. vm_compute. reflexivity. Qed.

(** ** The hub *)

Lemma visit_order_elem_of ord (cl : gset Conn) c :
  c ∈ visit_order ord cl ↔ c ∈ cl.
Proof.
  unfold visit_order. rewrite elem_of_app, !list_elem_of_filter.
  rewrite elem_of_remove_dups, elem_of_elements.
  destruct (decide (c ∈ ord)); tauto.
Qed.

Lemma visit_order_NoDup ord (cl : gset Conn) : NoDup (visit_order ord cl).
Proof.
  unfold visit_order. apply NoDup_app. split_and!.
  - apply NoDup_filter, NoDup_remove_dups.
  - intros c [_ H1]%list_elem_of_filter [H2 _]%list_elem_of_filter.
    apply H2. by apply elem_of_remove_dups.
  - apply NoDup_filter, NoDup_elements.
Qed.

(** *** Projections of a trace *)

Lemma writes_to_app c tr1 tr2 :
  writes_to c (tr1 ++ tr2) = writes_to c tr1 ++ writes_to c tr2.
Proof. apply omap_app. Qed.

Lemma delivered_to_app c tr1 tr2 :
  delivered_to c (tr1 ++ tr2) = delivered_to c tr1 ++ delivered_to c tr2.
Proof. apply omap_app. Qed.

Lemma sends_app tr1 tr2 : sends (tr1 ++ tr2) = sends tr1 ++ sends tr2.
Proof. apply omap_app. Qed.

Lemma recvs_app tr1 tr2 : recvs (tr1 ++ tr2) = recvs tr1 ++ recvs tr2.
Proof. apply omap_app. Qed.

(** *** One frame written to a list of connections *)

Section fanout.
Context (msg : WSResponse) (failing : gset Conn).

Lemma fanout_fold visit (cl : gset Conn) evs :
  foldl (write_client msg failing) (cl, evs) visit =
  (cl ∖ (failing ∩ list_to_set visit), evs ++ (visit ≫= write_events msg failing)).
Proof.
  revert cl evs. induction visit as [|c visit IH]; intros cl evs.
  - simpl. f_equal; [set_solver|by rewrite app_nil_r].
  - simpl foldl. rewrite bind_cons.
    assert (write_client msg failing (cl, evs) c =
            (if decide (c ∈ failing) then cl ∖ {[c]} else cl,
             evs ++ write_events msg failing c)) as ->.
    { unfold write_client, write_events. by case_decide. }
    rewrite IH. f_equal; [|by rewrite <- app_assoc].
    case_decide; set_solver.
Qed.

Lemma fanout_sends visit :
  sends (visit ≫= write_events msg failing) = [] ∧
  recvs (visit ≫= write_events msg failing) = [].
Proof.
  induction visit as [|c visit [IH1 IH2]]; [done|].
  rewrite bind_cons, sends_app, recvs_app, IH1, IH2.
  unfold write_events. by case_decide.
Qed.

Lemma write_events_to x c :
  writes_to c (write_events msg failing x) =
    (if decide (x = c) then [msg] else []) ∧
  delivered_to c (write_events msg failing x) =
    (if decide (x = c) then if decide (c ∈ failing) then [] else [msg] else []).
Proof.
  unfold write_events. destruct (decide (x = c)) as [->|Hne].
  - destruct (decide (c ∈ failing)); simpl; by rewrite decide_True.
  - destruct (decide (x ∈ failing)); simpl; by rewrite decide_False.
Qed.

Lemma fanout_writes_other visit c :
  c ∉ visit →
  writes_to c (visit ≫= write_events msg failing) = [] ∧
  delivered_to c (visit ≫= write_events msg failing) = [].
Proof.
  induction visit as [|x visit IH]; [done|].
  intros [Hne Hnin]%not_elem_of_cons. destruct (IH Hnin) as [IH1 IH2].
  rewrite bind_cons, writes_to_app, delivered_to_app, IH1, IH2.
  destruct (write_events_to x c) as [-> ->].
  rewrite !decide_False by congruence. done.
Qed.

Lemma fanout_writes visit c :
  NoDup visit → c ∈ visit →
  writes_to c (visit ≫= write_events msg failing) = [msg] ∧
  delivered_to c (visit ≫= write_events msg failing) =
    (if decide (c ∈ failing) then [] else [msg]).
Proof.
  induction visit as [|x visit IH]; [by intros _ ?%elem_of_nil|].
  intros [Hx Hnd]%NoDup_cons Hin.
  rewrite bind_cons, writes_to_app, delivered_to_app.
  destruct (write_events_to x c) as [-> ->].
  destruct (decide (x = c)) as [->|Hne].
  - destruct (fanout_writes_other visit c Hx) as [-> ->].
    by rewrite !app_nil_r.
  - apply elem_of_cons in Hin as [?|Hin]; [congruence|].
    by destruct (IH Hnd Hin) as [-> ->].
Qed.

Lemma fanout_no_private visit c m ok :
  EWriteJSON c m ok ∉ visit ≫= write_events msg failing.
Proof.
  induction visit as [|x visit IH]; [apply not_elem_of_nil|].
  rewrite bind_cons, elem_of_app. intros [H|H]; [|done].
  unfold write_events in H. case_decide; set_solver.
Qed.

End fanout.

(** One turn of the dispatcher, in closed form. *)
Lemma handleMessages_cons ord failing s msg rest :
  broadcast s = msg :: rest →
  handleMessages ord failing s =
  mkState (db s) (clients s ∖ failing) (sessions s) rest (worker s)
          (trace s ++ ERecv msg ::
             (visit_order ord (clients s) ≫= write_events msg failing)).
Proof.
  intros Hb. unfold handleMessages. rewrite Hb, fanout_fold. simpl.
  f_equal. apply set_eq. intros c.
  rewrite !elem_of_difference, elem_of_intersection, elem_of_list_to_set.
  rewrite visit_order_elem_of. tauto.
Qed.

Lemma handleMessages_nil ord failing s :
  broadcast s = [] → handleMessages ord failing s = s.
Proof. intros Hb. unfold handleMessages. by rewrite Hb. Qed.

(** ** What each goroutine leaves alone *)

Lemma taskWorker_claim_frame now io s :
  clients (taskWorker_claim now io s) = clients s ∧
  sessions (taskWorker_claim now io s) = sessions s.
Proof.
  unfold taskWorker_claim. destruct (worker s); [|done].
  destruct (claimTx now io (db s)) as [d t f [e|]]; simpl;
    [case_decide|]; by destruct f.
Qed.

Lemma taskWorker_finish_frame cmd unix now s :
  clients (taskWorker_finish cmd unix now s) = clients s ∧
  sessions (taskWorker_finish cmd unix now s) = sessions s.
Proof.
  unfold taskWorker_finish. destruct (worker s); [done|].
  by destruct cmd.
Qed.

Lemma handleMessages_frame ord failing s :
  db (handleMessages ord failing s) = db s ∧
  worker (handleMessages ord failing s) = worker s ∧
  sessions (handleMessages ord failing s) = sessions s.
Proof. unfold handleMessages. by destruct (broadcast s). Qed.

Lemma serveWs_connect_frame c s :
  db (serveWs_connect c s) = db s ∧
  worker (serveWs_connect c s) = worker s ∧
  broadcast (serveWs_connect c s) = broadcast s ∧
  trace (serveWs_connect c s) = trace s.
Proof. unfold serveWs_connect. by case_decide. Qed.

Lemma serveWs_read_worker c r now ok s :
  worker (serveWs_read c r now ok s) = worker s.
Proof.
  unfold serveWs_read. case_decide; [|done].
  destruct r as [msg|]; [|done]. by repeat case_decide.
Qed.

(** ** A session and the messages it does not know *)

Lemma serveWs_read_unknown c msg now ok s :
  MsgType msg ≠ "get_history" → MsgType msg ≠ "create_task" →
  serveWs_read c (ReadOk msg) now ok s = s.
Proof.
  intros H1 H2. unfold serveWs_read.
  case_decide; [|done]. by rewrite !decide_False.
Qed.

(** C9 — Unknown inbound messages are ignored.  A message whose type is
    neither get_history nor create_task leaves the whole state as it was:
    the table, the channel and the trace are unchanged, so nothing is
    stored, published or replied, and the connection is still registered
    and its session still reading. *)
Theorem unknown_message_ignored c msg now ok s :
  MsgType msg ≠ "get_history" → MsgType msg ≠ "create_task" →
  step (ARead c (ReadOk msg) now ok) s = s.
Proof. intros H1 H2. simpl. by apply serveWs_read_unknown. Qed.

Lemma unknown_message_ignored_witness :
  step (ARead 1 (ReadOk (mkMsg "delete_task" "cat")) 50%Z true)
       (step (AConnect 1) (init rows_sample)) =
  step (AConnect 1) (init rows_sample).
Proof.
  apply (unknown_message_ignored 1 (mkMsg "delete_task" "cat") 50%Z true
           (step (AConnect 1) (init rows_sample))); by_compute.
Defined.

(** ** Who is taken off the registry *)

Lemma unregistered_by a s c :
  c ∈ clients s → c ∉ clients (step a s) →
  (∃ now ok, a = ARead c ReadErr now ok) ∨
  (∃ ord failing msg rest,
      a = ADispatch ord failing ∧ broadcast s = msg :: rest ∧ c ∈ failing).
Proof.
  intros Hin Hout. destruct a as [c'|err|c' r now ok|ord failing|now io|cmd unix now];
    simpl in Hout.
  - exfalso. apply Hout. unfold serveWs_connect. case_decide; [done|].
    simpl. set_solver.
  - done.
  - unfold serveWs_read in Hout. case_decide; [|done].
    destruct r as [msg|].
    + exfalso. apply Hout. by repeat case_decide.
    + left. exists now, ok. simpl in Hout.
      destruct (decide (c = c')) as [->|Hne]; [done|].
      exfalso. apply Hout. set_solver.
  - right. destruct (broadcast s) as [|msg rest] eqn:Hb.
    + by rewrite handleMessages_nil in Hout.
    + rewrite (handleMessages_cons _ _ _ msg rest) in Hout by done.
      simpl in Hout. exists ord, failing, msg, rest. split_and!; [done..|].
      set_solver.
  - by rewrite (proj1 (taskWorker_claim_frame _ _ _)) in Hout.
  - by rewrite (proj1 (taskWorker_finish_frame _ _ _ _)) in Hout.
Qed.

(** C10 — A failed private history reply does not prune the connection.
    When the write of the get_history reply fails, the error is dropped:
    the registry and the running sessions are what they were, and so are
    the table and the channel.  A registered connection leaves the
    registry only through a failed read of its own session or through a
    failed write by the dispatcher. *)
Theorem failed_history_reply_keeps_connection c msg now s :
  c ∈ sessions s → MsgType msg = "get_history" →
  let s' := step (ARead c (ReadOk msg) now false) s in
  clients s' = clients s ∧ sessions s' = sessions s ∧
  db s' = db s ∧ broadcast s' = broadcast s ∧ worker s' = worker s ∧
  trace s' = trace s ++
    [EWriteJSON c (mkResp "history" (DataTasks (recentHistory (db s)))) false] ∧
  ∀ a s0 c0, c0 ∈ clients s0 → c0 ∉ clients (step a s0) →
    (∃ now0 ok, a = ARead c0 ReadErr now0 ok) ∨
    (∃ ord failing m rest,
        a = ADispatch ord failing ∧ broadcast s0 = m :: rest ∧ c0 ∈ failing).
Proof.
  intros Hc Hm. simpl. rewrite serveWs_get_history by done. simpl.
  split_and!; try done. apply unregistered_by.
Qed.

Lemma failed_history_reply_keeps_connection_witness :
  let s := step (AConnect 1) (init rows_sample) in
  let s' := step (ARead 1 (ReadOk (mkMsg "get_history" "")) 50%Z false) s in
  clients s' = clients s ∧ sessions s' = sessions s ∧
  db s' = db s ∧ broadcast s' = broadcast s ∧ worker s' = worker s ∧
  trace s' = trace s ++
    [EWriteJSON 1 (mkResp "history" (DataTasks (recentHistory (db s)))) false] ∧
  ∀ a s0 c0, c0 ∈ clients s0 → c0 ∉ clients (step a s0) →
    (∃ now0 ok, a = ARead c0 ReadErr now0 ok) ∨
    (∃ ord failing m rest,
        a = ADispatch ord failing ∧ broadcast s0 = m :: rest ∧ c0 ∈ failing).
Proof.
  apply (failed_history_reply_keeps_connection 1 (mkMsg "get_history" "") 50%Z
           (step (AConnect 1) (init rows_sample))).
  - by_compute.
  - reflexivity.
Defined.

(** ** The worker when there is nothing to claim *)

Lemma set_db_same s : set_db (db s) s = s.
Proof. by destruct s. Qed.

Lemma emit_emit evs1 evs2 s : emit evs2 (emit evs1 s) = emit (evs1 ++ evs2) s.
Proof. unfold emit. simpl. by rewrite app_assoc. Qed.



Example empty_queue_sample :
  trace (run [AClaim 20%Z healthy; AClaim 22%Z (mkFaults (Some "disk I/O error") None None)]
             (init rows_done)) =
  [ESleep 2; ELog (LogTxError (ErrStorage "disk I/O error")); ESleep 2].
Proof. vm_compute. reflexivity. Qed.

(** ** The worker, in closed form *)

Lemma taskWorker_claim_found now io s t :
  worker s = Idle → wf_db (db s) →
  first_fault io = None → save_fault io = None → commit_fault io = None →
  firstPending (db s) = inl t →
  let t' := with_UpdatedAt now (with_Status "Processing" t) in
  taskWorker_claim now io s =
  mkState ((λ r, if decide (ID r = ID t) then t' else r) <$> db s)
          (clients s) (sessions s) (broadcast s ++ [update_of t'])
          (Generating t')
          (trace s ++ [ESend (update_of t'); ELog (LogProcessing (ID t) (Prompt t))]).
Proof.
  intros Hw [Hnd Hpos] Hf Hs Hk Ht. simpl. unfold taskWorker_claim, claimTx.
  rewrite Hw, Hf, Hs, Hk, Ht.
  apply firstPending_inl in Ht as (Hin & _ & _).
  rewrite Save_update; simpl.
  - unfold notifyUpdate, publish, emit, set_worker, set_db, update_of. simpl.
    by rewrite <- app_assoc.
  - rewrite Forall_forall in Hpos. by apply Hpos.
  - by apply list_elem_of_fmap_2.
Qed.

(** The commit fails: the error is logged, the table is as it was, and
    the worker goes on with the record the closure marked. *)
Lemma taskWorker_claim_lost now io s t m :
  worker s = Idle → wf_db (db s) →
  first_fault io = None → save_fault io = None → commit_fault io = Some m →
  firstPending (db s) = inl t →
  let t' := with_UpdatedAt now (with_Status "Processing" t) in
  taskWorker_claim now io s =
  mkState (db s) (clients s) (sessions s) (broadcast s ++ [update_of t'])
          (Generating t')
          (trace s ++ [ELog (LogTxError (ErrStorage m)); ESend (update_of t');
                       ELog (LogProcessing (ID t) (Prompt t))]).
Proof.
  intros Hw [Hnd Hpos] Hf Hs Hk Ht. simpl. unfold taskWorker_claim, claimTx.
  rewrite Hw, Hf, Hs, Hk, Ht.
  apply firstPending_inl in Ht as (Hin & _ & _).
  rewrite Save_update; simpl.
  - unfold notifyUpdate, publish, emit, set_worker, set_db, update_of. simpl.
    by rewrite <- !app_assoc.
  - rewrite Forall_forall in Hpos. by apply Hpos.
  - by apply list_elem_of_fmap_2.
Qed.

Lemma taskWorker_claim_not_found now io s :
  worker s = Idle → tx_found (claimTx now io (db s)) = false →
  ∃ evs, taskWorker_claim now io s = emit (evs ++ [ESleep 2]) s ∧
         sends evs = [] ∧ recvs evs = [] ∧ ∀ c, writes_to c evs = [].
Proof.
  intros Hw. unfold taskWorker_claim, claimTx. rewrite Hw.
  destruct (first_fault io) as [m|]; simpl.
  { intros _. exists [ELog (LogTxError (ErrStorage m))].
    by rewrite set_db_same, emit_emit. }
  destruct (firstPending (db s)) as [t|e]; simpl.
  - destruct (save_fault io) as [m|]; simpl; [|by destruct (commit_fault io)].
    intros _. exists [ELog (LogTxError (ErrStorage m))].
    by rewrite set_db_same, emit_emit.
  - intros _. rewrite set_db_same. case_decide.
    + by exists nil.
    + exists [ELog (LogTxError e)]. by rewrite emit_emit.
Qed.

Lemma claimTx_found_inv now io (rows : DB) :
  tx_found (claimTx now io rows) = true →
  first_fault io = None ∧ save_fault io = None ∧
  ∃ t, firstPending rows = inl t.
Proof.
  unfold claimTx. destruct (first_fault io); [done|].
  destruct (firstPending rows) as [t|e]; [|done].
  destruct (save_fault io); [done|]. intros _. eauto.
Qed.

Lemma taskWorker_claim_busy now io s task :
  worker s = Generating task → taskWorker_claim now io s = s.
Proof. intros Hw. unfold taskWorker_claim. by rewrite Hw. Qed.

Lemma taskWorker_finish_idle cmd unix now s :
  worker s = Idle → taskWorker_finish cmd unix now s = s.
Proof. intros Hw. unfold taskWorker_finish. by rewrite Hw. Qed.

Lemma consistent_sound s : consistent s → sound s.
Proof.
  intros [Hwf Hok]. split; [done|]. unfold worker_ok, worker_sound in *.
  destruct (worker s) as [|task]; [done|]. destruct Hok as (Hz & Hl & Hs).
  split; [done|]. exists task. split; [done|]. by left.
Qed.

(** The record the worker writes at the end, and the line it logs. *)
Lemma taskWorker_finish_busy_sound cmd unix now s task :
  sound s → worker s = Generating task →
  let final :=
    match cmd with
    | CmdErr _ _ => with_UpdatedAt now (with_Status "Failed" task)
    | CmdOk _ =>
        with_UpdatedAt now
          (with_ImagePath (runPythonZImage cmd unix (Prompt task) (ID task)).1
             (with_Status "Completed" task))
    end in
  let line :=
    match cmd with
    | CmdErr err output =>
        LogFailed (ID task) ("python error: " +:+ err +:+ ", log: " +:+ output)
    | CmdOk _ => LogCompleted (ID task)
    end in
  taskWorker_finish cmd unix now s =
  mkState ((λ r, if decide (ID r = ID task) then final else r) <$> db s)
          (clients s) (sessions s) (broadcast s ++ [update_of final]) Idle
          (trace s ++ [ELog line; ESend (update_of final)]).
Proof.
  intros [[Hnd Hpos] Hok] Hw. unfold worker_sound in Hok. rewrite Hw in Hok.
  destruct Hok as (Hz & row & Hl & Hst).
  assert (ID task ∈ ID <$> db s) as Hin.
  { apply lookup_id_Some in Hl as [Hin <-]. by apply list_elem_of_fmap_2. }
  simpl. unfold taskWorker_finish. rewrite Hw.
  destruct cmd as [output|err output]; simpl.
  - rewrite Save_update by done. simpl.
    unfold notifyUpdate, publish, emit, set_worker, set_db, update_of. simpl.
    by rewrite <- app_assoc.
  - rewrite Save_update by done. simpl.
    unfold notifyUpdate, publish, emit, set_worker, set_db, update_of. simpl.
    by rewrite <- app_assoc.
Qed.

Lemma taskWorker_finish_busy cmd unix now s task :
  consistent s → worker s = Generating task →
  let final :=
    match cmd with
    | CmdErr _ _ => with_UpdatedAt now (with_Status "Failed" task)
    | CmdOk _ =>
        with_UpdatedAt now
          (with_ImagePath (runPythonZImage cmd unix (Prompt task) (ID task)).1
             (with_Status "Completed" task))
    end in
  let line :=
    match cmd with
    | CmdErr err output =>
        LogFailed (ID task) ("python error: " +:+ err +:+ ", log: " +:+ output)
    | CmdOk _ => LogCompleted (ID task)
    end in
  taskWorker_finish cmd unix now s =
  mkState ((λ r, if decide (ID r = ID task) then final else r) <$> db s)
          (clients s) (sessions s) (broadcast s ++ [update_of final]) Idle
          (trace s ++ [ELog line; ESend (update_of final)]).
Proof. intros Hc. by apply taskWorker_finish_busy_sound, consistent_sound. Qed.

Lemma serveWs_create_task c msg now ok s :
  c ∈ sessions s → MsgType msg = "create_task" →
  let newTask := mkTask (Gorm.next_id (db s)) (MsgPrompt msg) "Pending" "" now now in
  serveWs_read c (ReadOk msg) now ok s =
  mkState (db s ++ [newTask]) (clients s) (sessions s)
          (broadcast s ++ [mkResp "new_task" (DataTask newTask)]) (worker s)
          (trace s ++ [ESend (mkResp "new_task" (DataTask newTask))]).
Proof.
  intros Hc Hm. simpl. unfold serveWs_read.
  rewrite decide_True by done. rewrite decide_False by (rewrite Hm; discriminate).
  by rewrite decide_True.
Qed.

(** ** Invariants of the program *)

Lemma step_db_change_sound a s :
  sound s →
  db_change s (step a s) ∨ (¬ commit_ok a ∧ claim_lost s (step a s)).
Proof.
  intros Hc. destruct a as [c|err|c r now ok|ord failing|now io|cmd unix now]; simpl.
  - left. apply change_none; apply serveWs_connect_frame.
  - left. by apply change_none.
  - left. destruct (decide (c ∈ sessions s)) as [Hin|Hin];
      [|unfold serveWs_read; rewrite decide_False by done; by apply change_none].
    destruct r as [msg|];
      [|unfold serveWs_read; rewrite decide_True by done; by apply change_none].
    destruct (decide (MsgType msg = "get_history")) as [Hh|Hh].
    { rewrite serveWs_get_history by done. by apply change_none. }
    destruct (decide (MsgType msg = "create_task")) as [Hk|Hk].
    { rewrite serveWs_create_task by done. by eapply change_create. }
    rewrite serveWs_read_unknown by done. by apply change_none.
  - left. apply change_none; apply handleMessages_frame.
  - destruct (worker s) as [|task] eqn:Hw;
      [|left; rewrite (taskWorker_claim_busy _ _ _ task) by done; by apply change_none].
    destruct (tx_found (claimTx now io (db s))) eqn:Hf.
    + apply claimTx_found_inv in Hf as (H1 & H2 & t & Ht).
      destruct Hc as [Hwf _].
      destruct (commit_fault io) as [m|] eqn:Hk.
      * right. split; [done|].
        rewrite (taskWorker_claim_lost now io s t m) by done.
        apply firstPending_inl in Ht as (Hin & Hp & _).
        by exists t, now.
      * left. rewrite (taskWorker_claim_found now io s t) by done.
        apply firstPending_inl in Ht as (Hin & Hp & _).
        by eapply change_claim.
    + left. destruct (taskWorker_claim_not_found now io s Hw Hf) as (evs & -> & _).
      by apply change_none.
  - left. destruct (worker s) as [|task] eqn:Hw;
      [rewrite taskWorker_finish_idle by done; by apply change_none|].
    rewrite (taskWorker_finish_busy_sound cmd unix now s task) by done.
    eapply (change_finish _ _ task); [done| | |done|done];
      destruct cmd; simpl; auto.
Qed.

Lemma step_db_change a s : sound s → commit_ok a → db_change s (step a s).
Proof.
  intros Hc Hk. by destruct (step_db_change_sound a s Hc) as [?|[? _]].
Qed.

Lemma db_change_wf s s' : sound s → db_change s s' → wf_db (db s').
Proof.
  intros [[Hnd Hpos] Hok] Hch. unfold wf_db, worker_sound in *.
  destruct Hch as [Hd Hw|prompt now Hd Hw|t now Hw Hin Hp Hd Hw'|task final Hw Hid Hst Hd Hw'];
    rewrite Hd.
  - done.
  - exact (Create_wf now (mkTask 0 prompt "Pending" "" 0%Z 0%Z) (db s)
             eq_refl (conj Hnd Hpos)).
  - rewrite Forall_forall in Hpos. pose proof (Hpos t Hin) as Hz.
    split; [by rewrite ids_replace|].
    apply Forall_fmap, Forall_forall. intros r Hr. simpl.
    case_decide; simpl; [done|by apply Hpos].
  - rewrite Hw in Hok. destruct Hok as (Hz & _).
    split; [by rewrite ids_replace|].
    apply Forall_fmap, Forall_forall. intros r Hr. simpl.
    rewrite Forall_forall in Hpos.
    case_decide; simpl; [congruence|by apply Hpos].
Qed.

Lemma db_change_consistent s s' : consistent s → db_change s s' → consistent s'.
Proof.
  intros Hc Hch. split; [apply (db_change_wf s); [by apply consistent_sound|done]|].
  destruct Hc as [[Hnd Hpos] Hok]. unfold worker_ok in *.
  destruct Hch as [Hd Hw|prompt now Hd Hw|t now Hw Hin Hp Hd Hw'|task final Hw Hid Hst Hd Hw'].
  - by rewrite Hd, Hw.
  - rewrite Hd, Hw. destruct (worker s) as [|task]; [done|].
    destruct Hok as (Hz & Hl & Hs). split_and!; [done| |done].
    rewrite lookup_id_app, Hl. done.
  - rewrite Hd, Hw'. rewrite Forall_forall in Hpos.
    pose proof (Hpos t Hin) as Hz. simpl. split_and!; [done| |done].
    rewrite lookup_id_replace by done.
    rewrite (lookup_id_elem_of _ t Hnd Hin). simpl. by rewrite decide_True.
  - by rewrite Hw'.
Qed.

Lemma db_change_sound s s' : sound s → db_change s s' → sound s'.
Proof.
  intros Hc Hch. split; [by apply (db_change_wf s)|].
  destruct Hc as [[Hnd Hpos] Hok]. unfold worker_sound in *.
  destruct Hch as [Hd Hw|prompt now Hd Hw|t now Hw Hin Hp Hd Hw'|task final Hw Hid Hst Hd Hw'].
  - by rewrite Hd, Hw.
  - rewrite Hd, Hw. destruct (worker s) as [|task]; [done|].
    destruct Hok as (Hz & row & Hl & Hh). split; [done|]. exists row.
    split; [|done]. rewrite lookup_id_app, Hl. done.
  - rewrite Hd, Hw'. rewrite Forall_forall in Hpos.
    pose proof (Hpos t Hin) as Hz. simpl. split; [done|].
    exists (with_UpdatedAt now (with_Status "Processing" t)). split; [|by left].
    rewrite lookup_id_replace by done.
    rewrite (lookup_id_elem_of _ t Hnd Hin). simpl. by rewrite decide_True.
  - by rewrite Hw'.
Qed.

Lemma claim_lost_sound s s' : sound s → claim_lost s s' → sound s'.
Proof.
  intros [[Hnd Hpos] Hok] (t & now & Hw & Hin & Hp & Hd & Hw').
  split; [by rewrite Hd|]. unfold worker_sound. rewrite Hw', Hd. simpl.
  rewrite Forall_forall in Hpos. split; [by apply Hpos|].
  exists t. split; [by apply lookup_id_elem_of|]. right. split; [done|].
  reflexivity.
Qed.

Lemma step_sound a s : sound s → sound (step a s).
Proof.
  intros Hc. destruct (step_db_change_sound a s Hc) as [Hch|[_ Hl]].
  - by apply (db_change_sound s).
  - by apply (claim_lost_sound s).
Qed.


Lemma step_consistent a s : commit_ok a → consistent s → consistent (step a s).
Proof.
  intros Hk Hc. apply (db_change_consistent s); [done|].
  by apply step_db_change; [apply consistent_sound|].
Qed.

Lemma run_consistent acts s :
  Forall commit_ok acts → consistent s → consistent (run acts s).
Proof.
  revert s. induction acts as [|a acts IH]; intros s Hk Hc; [done|].
  apply Forall_cons in Hk as [Hk1 Hk2]. simpl. by apply IH, step_consistent.
Qed.

Lemma run_app acts1 acts2 s : run (acts1 ++ acts2) s = run acts2 (run acts1 s).
Proof. revert s. induction acts1 as [|a acts1 IH]; intros s; [done|]. simpl. apply IH. Qed.

Lemma init_consistent (rows : DB) : wf_db rows → consistent (init rows).
Proof. intros Hwf. by split. Qed.

(** ** The life cycle of a task *)

Lemma lifecycle_step_refl o : lifecycle_step o o.
Proof. destruct o; simpl; auto. Qed.

Lemma db_change_lifecycle s s' i :
  consistent s → db_change s s' →
  lifecycle_step (status_of i (db s)) (status_of i (db s')).
Proof.
  intros [[Hnd Hpos] Hok] Hch. unfold status_of.
  destruct Hch as [Hd Hw|prompt now Hd Hw|t now Hw Hin Hp Hd Hw'|task final Hw Hid Hst Hd Hw'];
    rewrite Hd.
  - apply lifecycle_step_refl.
  - rewrite lookup_id_app. destruct (lookup_id i (db s)) as [r|]; simpl; [by left|].
    unfold lookup_id. rewrite filter_cons. by case_decide.
  - rewrite lookup_id_replace by done.
    destruct (lookup_id i (db s)) as [r|] eqn:E; simpl; [|done].
    case_decide as Hid; simpl; [|by left].
    apply lookup_id_Some in E as [Hr <-].
    pose proof (lookup_id_elem_of _ r Hnd Hr) as H1.
    pose proof (lookup_id_elem_of _ t Hnd Hin) as H2.
    rewrite Hid in H1. assert (r = t) as -> by congruence.
    right. left. done.
  - rewrite lookup_id_replace by done.
    destruct (lookup_id i (db s)) as [r|] eqn:E; simpl; [|done].
    case_decide as Hid'; simpl; [|by left].
    unfold worker_ok in Hok. rewrite Hw in Hok. destruct Hok as (Hz & Hl & Hs).
    apply lookup_id_Some in E as [Hr <-]. rewrite <- Hid' in Hl.
    rewrite (lookup_id_elem_of _ r Hnd Hr) in Hl. assert (r = task) as -> by congruence.
    right. right. split; [done|]. destruct Hst as [[-> _]| ->]; auto.
Qed.

Lemma lifecycle_step_terminal st o :
  terminal st → lifecycle_step (Some st) o → o = Some st.
Proof.
  intros Ht. destruct o as [b|]; simpl; [|done].
  intros [->|[[-> _]|[-> _]]]; [done| |]; destruct Ht; discriminate.
Qed.

Lemma lifecycle_step_pending o :
  lifecycle_step (Some "Pending") o → o = Some "Pending" ∨ o = Some "Processing".
Proof.
  destruct o as [b|]; simpl; [|done].
  intros [<-|[[_ ->]|[? _]]]; [by left|by right|discriminate].
Qed.

Lemma lookup_id_replace_ne i k t' (rows : DB) :
  ID t' = k → i ≠ k →
  lookup_id i ((λ r, if decide (ID r = k) then t' else r) <$> rows) = lookup_id i rows.
Proof.
  intros Hk Hi. rewrite lookup_id_replace by done.
  destruct (lookup_id i rows) as [r|] eqn:E; [|done]. simpl.
  apply lookup_id_Some in E as [_ E]. rewrite decide_False; [done|congruence].
Qed.

Lemma holds_not_terminal task row : holds task row → ¬ terminal (Status row).
Proof.
  intros [[-> Hs]|[Hs _]] [Ht|Ht]; congruence.
Qed.

(** A finished row is out of the reach of every step, whether the commits
    succeed or not: the row the worker writes over is never a finished
    one. *)
Lemma terminal_row_step a s i r :
  sound s → lookup_id i (db s) = Some r → terminal (Status r) →
  lookup_id i (db (step a s)) = Some r.
Proof.
  intros Hc Hl Ht.
  destruct (step_db_change_sound a s Hc) as [Hch|(_ & t & now & _ & _ & _ & Hd & _)];
    [|by rewrite Hd].
  destruct Hc as [[Hnd Hpos] Hok].
  pose proof (lookup_id_Some _ _ _ Hl) as [Hr Hid].
  destruct Hch as [Hd Hw|prompt now Hd Hw|t now Hw Hin Hp Hd Hw'|task final Hw Hidf Hst Hd Hw'];
    rewrite Hd.
  - done.
  - by rewrite lookup_id_app, Hl.
  - rewrite lookup_id_replace_ne; [done|done|].
    intros ->. rewrite (lookup_id_elem_of _ t Hnd Hin) in Hl.
    injection Hl as ->. unfold pending in Hp. destruct Ht as [Ht|Ht]; congruence.
  - rewrite lookup_id_replace_ne; [done|done|].
    intros ->. unfold worker_sound in Hok. rewrite Hw in Hok.
    destruct Hok as (_ & row & Hl' & Hh). rewrite Hl' in Hl. injection Hl as ->.
    by apply holds_not_terminal in Hh.
Qed.

Lemma terminal_row_stable_sound acts s i r :
  sound s → lookup_id i (db s) = Some r → terminal (Status r) →
  lookup_id i (db (run acts s)) = Some r.
Proof.
  revert s. induction acts as [|a acts IH]; intros s Hc Hl Ht; [done|].
  simpl. apply IH; [by apply step_sound| |done].
  by apply terminal_row_step.
Qed.

Lemma terminal_row_stable acts s i r :
  consistent s → lookup_id i (db s) = Some r → terminal (Status r) →
  lookup_id i (db (run acts s)) = Some r.
Proof. intros Hc. by apply terminal_row_stable_sound, consistent_sound. Qed.

Lemma terminal_stable acts s i st :
  consistent s → status_of i (db s) = Some st → terminal st →
  status_of i (db (run acts s)) = Some st.
Proof.
  unfold status_of. intros Hc Hs Ht.
  destruct (lookup_id i (db s)) as [r|] eqn:Hl; [|done].
  injection Hs as <-. by rewrite (terminal_row_stable acts s i r).
Qed.

Lemma pending_passes_processing acts s i st :
  Forall commit_ok acts →
  consistent s → status_of i (db s) = Some "Pending" →
  status_of i (db (run acts s)) = Some st → terminal st →
  ∃ acts1 acts2, acts = acts1 ++ acts2 ∧
    status_of i (db (run acts1 s)) = Some "Processing".
Proof.
  revert s. induction acts as [|a acts IH]; intros s Hk Hc Hs Hst Ht.
  - simpl in Hst. rewrite Hs in Hst. destruct Ht; simplify_eq.
  - simpl in Hst. apply Forall_cons in Hk as [Hk1 Hk2].
    pose proof (db_change_lifecycle s (step a s) i Hc
                  (step_db_change a s (consistent_sound s Hc) Hk1)) as Hl.
    rewrite Hs in Hl. apply lifecycle_step_pending in Hl as [Hl|Hl].
    + destruct (IH (step a s) Hk2 (step_consistent a s Hk1 Hc) Hl Hst Ht)
        as (acts1 & acts2 & -> & H1).
      by exists (a :: acts1), acts2.
    + by exists [a], acts.
Qed.

(** On the runs all of whose commits succeed, from any consistent state:
    between two consecutive states the status of a task either stays or
    moves along Pending → Processing or Processing → Completed / Failed,
    and a row that appears is Pending; and a task seen Pending and later
    seen Completed or Failed was Processing at a state in between.  On
    every run, a task that is Completed or Failed keeps that status. *)
Lemma monotonic_status_committed s :
  consistent s →
  (∀ acts a i, Forall commit_ok acts → commit_ok a →
     lifecycle_step (status_of i (db (run acts s)))
                    (status_of i (db (step a (run acts s))))) ∧
  (∀ acts i st,
     status_of i (db s) = Some st → terminal st →
     status_of i (db (run acts s)) = Some st) ∧
  (∀ acts i st, Forall commit_ok acts →
     status_of i (db s) = Some "Pending" →
     status_of i (db (run acts s)) = Some st → terminal st →
     ∃ acts1 acts2, acts = acts1 ++ acts2 ∧
       status_of i (db (run acts1 s)) = Some "Processing").
Proof.
  intros Hc. split_and!.
  - intros acts a i Hk Hka. pose proof (run_consistent acts s Hk Hc) as Hc'.
    apply db_change_lifecycle; [done|].
    by apply step_db_change; [apply consistent_sound|].
  - intros acts i st. by apply terminal_stable.
  - intros acts i st Hk. by apply pending_passes_processing.
Qed.

(** C2 — Monotonic status, on a run where the commit of the claim fails.
    The closure has set [found] before [db.Transaction] commits, so the
    transaction returns with [found] true, the error of the commit, and
    the table as it was.  The worker logs the error and goes on as if the
    row were marked: it announces the task as Processing, and at the end
    writes Completed over a row that is still Pending.  The status of the
    task goes from Pending to Completed, which is no edge of the life
    cycle, and is Processing in no state of the run. *)
Theorem lost_commit_skips_processing :
  let r := claimTx 10%Z lost_commit rows_one in
  tx_found r = true ∧
  tx_err r = Some (ErrStorage "disk I/O error") ∧
  tx_db r = rows_one ∧
  (λ s, status_of 1 (db s)) <$> (init rows_one :: states acts_lost (init rows_one)) =
    [Some "Pending"; Some "Pending"; Some "Completed"] ∧
  ¬ lifecycle_step (Some "Pending") (Some "Completed") ∧
  sends (trace (run acts_lost (init rows_one))) =
    [update_of (mkTask 1 "cat" "Processing" "" 5%Z 10%Z);
     update_of (mkTask 1 "cat" "Completed" "task_1_171234.png" 5%Z 12%Z)] ∧
  consistent (init rows_one).
Proof.
  split_and!; try (vm_compute; reflexivity).
  - intros [H|[[_ H]|[H _]]]; discriminate.
  - by_compute.
Qed.

Example status_history_sample :
  (λ s, status_of 2 (db s)) <$>
    states [AConnect 1; AClaim 10%Z healthy; AClaim 11%Z healthy;
            AFinish (CmdOk "") 171234%Z 12%Z; AClaim 13%Z healthy]
           (init rows_sample) =
  [Some "Pending"; Some "Processing"; Some "Processing"; Some "Completed";
   Some "Completed"].
Proof. vm_compute. reflexivity. Qed.

(** ** A failed generation *)

Lemma dispatch_writes ord failing s m rest c :
  broadcast s = m :: rest → c ∈ clients s →
  writes_to c (trace (handleMessages ord failing s)) =
    writes_to c (trace s) ++ [m] ∧
  delivered_to c (trace (handleMessages ord failing s)) =
    delivered_to c (trace s) ++ (if decide (c ∈ failing) then [] else [m]).
Proof.
  intros Hb Hc. rewrite (handleMessages_cons _ _ _ m rest) by done. simpl.
  rewrite writes_to_app, delivered_to_app.
  change (ERecv m :: ?l) with ([ERecv m] ++ l).
  rewrite writes_to_app, delivered_to_app. simpl.
  destruct (fanout_writes m failing (visit_order ord (clients s)) c) as [-> ->];
    [apply visit_order_NoDup|by apply visit_order_elem_of|done].
Qed.

Lemma holds_unset_ok task row rows :
  unset_ok rows → row ∈ rows → holds task row → ImagePath task = "".
Proof.
  intros Hun Hr [[-> Hs]|[Hs ->]]; simpl.
  - apply Hun; [done|]. rewrite Hs. discriminate.
  - apply Hun; [done|]. rewrite Hs. discriminate.
Qed.

Lemma db_change_unset_ok s s' :
  sound s → db_change s s' → unset_ok (db s) → unset_ok (db s').
Proof.
  intros [[Hnd Hpos] Hok] Hch Hun. pose proof Hun as Hun0. unfold unset_ok in Hun |- *.
  destruct Hch as [Hd Hw|prompt now Hd Hw|t now Hw Hin Hp Hd Hw'|task final Hw Hid Hst Hd Hw'];
    rewrite Hd.
  - done.
  - intros r [Hr| ->%list_elem_of_singleton]%elem_of_app; [by apply Hun|done].
  - intros r' (r & -> & Hr)%list_elem_of_fmap. case_decide; simpl; [|by apply Hun].
    intros _. apply Hun; [done|]. rewrite Hp. discriminate.
  - intros r' (r & -> & Hr)%list_elem_of_fmap. case_decide; [|by apply Hun].
    unfold worker_sound in Hok. rewrite Hw in Hok. destruct Hok as (Hz & row & Hl & Hh).
    apply lookup_id_Some in Hl as [Hrow _].
    destruct Hst as [[_ ->]| ->]; [|done].
    intros _. by apply (holds_unset_ok task row (db s)).
Qed.

Lemma step_unset_ok a s :
  sound s → unset_ok (db s) → unset_ok (db (step a s)).
Proof.
  intros Hc Hun.
  destruct (step_db_change_sound a s Hc) as [Hch|(_ & t & now & _ & _ & _ & Hd & _)];
    [|by rewrite Hd].
  by apply (db_change_unset_ok s).
Qed.

Lemma run_unset_ok acts s :
  consistent s → unset_ok (db s) → unset_ok (db (run acts s)).
Proof.
  intros Hc%consistent_sound. revert s Hc.
  induction acts as [|a acts IH]; intros s Hc Hun; [done|].
  simpl. apply IH; [by apply step_sound|by apply step_unset_ok].
Qed.

(** C5 — Collaborator failure handling.  When [runPythonZImage] returns an
    error for the task the worker holds, the row of that task is written
    back as Failed with the result path it had (none, for a task whose
    path was unset), no other row changes, the failure is logged, an
    update frame carrying the Failed record is sent on the channel and
    written by the dispatcher to every registered connection, the status
    stays Failed in every later state, and the worker is back at the top
    of its loop. *)
Theorem collaborator_failure_recorded err output unix now s task :
  consistent s → worker s = Generating task →
  let s' := step (AFinish (CmdErr err output) unix now) s in
  let failed := with_UpdatedAt now (with_Status "Failed" task) in
  let genErr := "python error: " +:+ err +:+ ", log: " +:+ output in
  runPythonZImage (CmdErr err output) unix (Prompt task) (ID task) = ("", Some genErr) ∧
  lookup_id (ID task) (db s') = Some failed ∧
  Status failed = "Failed" ∧
  ImagePath failed = ImagePath task ∧
  (unset_ok (db s) → ImagePath failed = "" ∧ unset_ok (db s')) ∧
  (∀ i, i ≠ ID task → lookup_id i (db s') = lookup_id i (db s)) ∧
  broadcast s' = broadcast s ++ [update_of failed] ∧
  trace s' = trace s ++ [ELog (LogFailed (ID task) genErr); ESend (update_of failed)] ∧
  (broadcast s = [] → ∀ ord failing c, c ∈ clients s →
     writes_to c (trace (step (ADispatch ord failing) s')) =
       writes_to c (trace s') ++ [update_of failed]) ∧
  worker s' = Idle ∧ consistent s' ∧
  ∀ acts, status_of (ID task) (db (run acts s')) = Some "Failed".
Proof.
  intros Hc Hw. simpl.
  pose proof (step_consistent (AFinish (CmdErr err output) unix now) s I Hc) as Hc'.
  pose proof (step_db_change (AFinish (CmdErr err output) unix now) s
                (consistent_sound s Hc) I) as Hch.
  simpl in Hc', Hch.
  rewrite (taskWorker_finish_busy _ unix now s task Hc Hw) in *. simpl in *.
  pose proof Hc as Hcs.
  destruct Hc as [[Hnd Hpos] Hok]. unfold worker_ok in Hok. rewrite Hw in Hok.
  destruct Hok as (Hz & Hl & Hs).
  assert (lookup_id (ID task)
            ((λ r, if decide (ID r = ID task)
                   then with_UpdatedAt now (with_Status "Failed" task) else r) <$> db s)
          = Some (with_UpdatedAt now (with_Status "Failed" task))) as Hfailed.
  { rewrite lookup_id_replace by done. rewrite Hl. simpl. by rewrite decide_True. }
  split_and!; try done.
  - intros Hun. split.
    + apply Hun; [by apply lookup_id_Some in Hl as [? _]|]. rewrite Hs. discriminate.
    + by apply (db_change_unset_ok _ _ (consistent_sound _ Hcs) Hch).
  - intros i Hi. rewrite lookup_id_replace by done.
    destruct (lookup_id i (db s)) as [r|] eqn:E; [|done]. simpl.
    apply lookup_id_Some in E as [_ E]. rewrite decide_False; [done|congruence].
  - intros Hb ord failing c Hin.
    match goal with |- context [handleMessages ord failing ?st] => set (s' := st) end.
    apply (dispatch_writes ord failing s' (update_of (with_UpdatedAt now (with_Status "Failed" task))) [] c).
    + unfold s'. simpl. by rewrite Hb.
    + done.
  - intros acts.
    match goal with |- context [run acts ?st] => set (s' := st) in * end.
    apply terminal_stable; [done| |by right].
    unfold status_of, s'. simpl. by rewrite Hfailed.
Qed.

Lemma collaborator_failure_recorded_witness :
  let s' := step (AFinish (CmdErr "exit status 1" "Traceback") 17%Z 12%Z) s_busy in
  let failed := mkTask 2 "b" "Failed" "" 7%Z 12%Z in
  consistent s_busy ∧ worker s_busy = Generating task_busy ∧
  lookup_id 2 (db s') = Some failed ∧
  broadcast s' = [update_of failed] ∧
  writes_to 1 (trace (step (ADispatch [] ∅) s')) =
    writes_to 1 (trace s') ++ [update_of failed] ∧
  worker s' = Idle ∧
  ∀ acts, status_of 2 (db (run acts s')) = Some "Failed".
Proof.
  assert (consistent s_busy) as Hc by by_compute.
  assert (worker s_busy = Generating task_busy) as Hw by reflexivity.
  destruct (collaborator_failure_recorded "exit status 1" "Traceback" 17%Z 12%Z
              s_busy task_busy Hc Hw)
    as (_ & Hl & _ & _ & _ & _ & Hb & _ & Hd & Hi & _ & Hf).
  split_and!; [exact Hc|exact Hw|exact Hl|exact Hb| |exact Hi|exact Hf].
  apply Hd; [reflexivity|by_compute].
Defined.

(** ** The channel and the dispatcher *)

(** What one step adds to the trace: the frames taken from the channel are
    the oldest waiting ones, the frames sent are put behind the waiting
    ones, and a frame taken is written to exactly the registered
    connections. *)
Lemma step_events a s :
  ∃ evs, trace (step a s) = trace s ++ evs ∧
    broadcast s ++ sends evs = recvs evs ++ broadcast (step a s) ∧
    ∀ c, writes_to c evs = (if decide (c ∈ clients s) then recvs evs else []) ∧
         delivered_to c evs =
           (if decide (c ∈ clients s ∧ c ∈ clients (step a s)) then recvs evs else []).
Proof.
  assert (∀ (P : Prop) `{Decision P}, (if decide P then @nil WSResponse else []) = [])
    as Hif by (intros; by case_decide).
  destruct a as [c|err|c r now ok|ord failing|now io|cmd unix now]; simpl.
  - exists []. destruct (serveWs_connect_frame c s) as (_ & _ & -> & ->).
    rewrite !app_nil_r. split_and!; try done; intros c'; simpl; by rewrite ?Hif.
  - exists [ELog (LogUpgrade err)]. simpl.
    split_and!; try done; try apply app_nil_r; intros c'; simpl; by rewrite ?Hif.
  - destruct (decide (c ∈ sessions s)) as [Hin|Hin]; unfold serveWs_read.
    2:{ rewrite decide_False by done. exists []. rewrite !app_nil_r.
        split_and!; try done; intros c'; simpl; by rewrite ?Hif. }
    rewrite decide_True by done. destruct r as [msg|].
    2:{ exists [EClose c]. simpl.
        split_and!; try done; try apply app_nil_r; intros c'; simpl; by rewrite ?Hif. }
    destruct (decide (MsgType msg = "get_history")).
    { eexists [_]. simpl.
      split_and!; try done; try apply app_nil_r; intros c'; simpl; by rewrite ?Hif. }
    destruct (decide (MsgType msg = "create_task")).
    { eexists [ESend _]. simpl. split_and!; try done; intros c'; simpl; by rewrite ?Hif. }
    exists []. rewrite !app_nil_r. split_and!; try done; intros c'; simpl; by rewrite ?Hif.
  - destruct (broadcast s) as [|m rest] eqn:Hb.
    { rewrite handleMessages_nil by done. exists []. rewrite Hb, !app_nil_r.
      split_and!; try done; intros c'; simpl; by rewrite ?Hif. }
    rewrite (handleMessages_cons _ _ _ m rest) by done. simpl.
    eexists (ERecv m :: _). split_and!; [done| |].
    + change (ERecv m :: ?l) with ([ERecv m] ++ l).
      rewrite sends_app, recvs_app.
      destruct (fanout_sends m failing (visit_order ord (clients s))) as [-> ->].
      simpl. by rewrite app_nil_r.
    + intros c'. change (ERecv m :: ?l) with ([ERecv m] ++ l).
      rewrite writes_to_app, delivered_to_app, recvs_app.
      destruct (fanout_sends m failing (visit_order ord (clients s))) as [_ ->].
      simpl. destruct (decide (c' ∈ clients s)) as [Hc|Hc].
      * destruct (fanout_writes m failing (visit_order ord (clients s)) c') as [-> ->];
          [apply visit_order_NoDup|by apply visit_order_elem_of|].
        split; [done|]. repeat case_decide; set_solver.
      * destruct (fanout_writes_other m failing (visit_order ord (clients s)) c') as [-> ->];
          [by rewrite visit_order_elem_of|].
        split; [done|]. rewrite decide_False; [done|tauto].
  - destruct (worker s) as [|task] eqn:Hw.
    2:{ rewrite (taskWorker_claim_busy _ _ _ task) by done. exists [].
        rewrite !app_nil_r. split_and!; try done; intros c'; simpl; by rewrite ?Hif. }
    destruct (tx_found (claimTx now io (db s))) eqn:Hf.
    + unfold taskWorker_claim. rewrite Hw, Hf.
      destruct (tx_err (claimTx now io (db s))) as [e|]; simpl;
        [destruct (decide (e = ErrRecordNotFound)); simpl|];
        [eexists [ESend _; ELog _]|eexists [ELog _; ESend _; ELog _]
        |eexists [ESend _; ELog _]];
        rewrite <- ?app_assoc; simpl;
        (split_and!; try done); intros c'; simpl; by rewrite ?Hif.
    + destruct (taskWorker_claim_not_found now io s Hw Hf) as (evs & -> & H1 & H2 & H3).
      exists (evs ++ [ESleep 2]). simpl.
      rewrite sends_app, recvs_app, H1, H2. simpl. rewrite app_nil_r.
      split_and!; try done. intros c'. rewrite writes_to_app, H3. simpl.
      rewrite !Hif. split; [done|].
      unfold delivered_to. rewrite omap_app. simpl. rewrite app_nil_r.
      clear -H3. specialize (H3 c'). induction evs as [|e evs IH]; [done|].
      unfold writes_to in H3. simpl in *.
      destruct e as [c m ok| | | | | |]; simpl in *; try by apply IH.
      destruct (decide (c = c')); [done|]. destruct ok; by apply IH.
  - destruct (worker s) as [|task] eqn:Hw.
    { rewrite taskWorker_finish_idle by done. exists [].
      rewrite !app_nil_r. split_and!; try done; intros c'; simpl; by rewrite ?Hif. }
    unfold taskWorker_finish. rewrite Hw.
    destruct cmd; simpl; eexists [ELog _; ESend _]; rewrite <- app_assoc; simpl;
      (split_and!; try done); intros c'; simpl; by rewrite ?Hif.
Qed.

Lemma states_clients_cons a acts s c :
  Forall (λ s', c ∈ clients s') (states (a :: acts) s) ↔
  c ∈ clients (step a s) ∧ Forall (λ s', c ∈ clients s') (states acts (step a s)).
Proof. simpl. exact (Forall_cons (λ s', c ∈ clients s') _ _). Qed.

(** The same along a run: the dispatcher takes the frames in the order
    they were sent, every connection is written a subsequence of what the
    dispatcher took, in that order, and a connection that is registered
    all along is written all of it. *)
Lemma run_events acts s :
  ∃ evs, trace (run acts s) = trace s ++ evs ∧
    broadcast s ++ sends evs = recvs evs ++ broadcast (run acts s) ∧
    ∀ c, delivered_to c evs `sublist_of` writes_to c evs ∧
         writes_to c evs `sublist_of` recvs evs ∧
         (c ∈ clients s → Forall (λ s', c ∈ clients s') (states acts s) →
          writes_to c evs = recvs evs ∧ delivered_to c evs = recvs evs).
Proof.
  revert s. induction acts as [|a acts IH]; intros s.
  - exists []. simpl. rewrite !app_nil_r. split_and!; try done.
  - destruct (step_events a s) as (evs1 & Ht1 & Hq1 & Hw1).
    destruct (IH (step a s)) as (evs2 & Ht2 & Hq2 & Hw2).
    exists (evs1 ++ evs2). simpl. split_and!.
    + by rewrite Ht2, Ht1, <- app_assoc.
    + rewrite sends_app, recvs_app, app_assoc, Hq1, <- !app_assoc. by rewrite Hq2.
    + intros c. destruct (Hw1 c) as [Hwc Hdc]. destruct (Hw2 c) as (Hs1 & Hs2 & Hall).
      rewrite writes_to_app, delivered_to_app, recvs_app. split_and!.
      * apply sublist_app; [|done]. rewrite Hwc, Hdc.
        destruct (decide (c ∈ clients s ∧ c ∈ clients (step a s))) as [[H1 H2]|Hn];
          [|apply sublist_nil_l].
        by rewrite decide_True.
      * apply sublist_app; [|done]. rewrite Hwc.
        destruct (decide (c ∈ clients s)); [reflexivity|apply sublist_nil_l].
      * intros Hc [Hc' Hrest]%states_clients_cons.
        destruct (Hall Hc' Hrest) as [-> ->]. rewrite Hwc, Hdc.
        rewrite !decide_True by done. done.
Qed.

(** C4 — Broadcast total order.  One turn of the dispatcher takes the
    oldest frame waiting on the channel and writes it once to every
    connection registered at that time; the write reaches the peer unless
    it fails, and then the connection is taken off the registry.  Along
    any run the dispatcher takes the frames in the order they were sent,
    what is written to a connection is a subsequence of that one sequence,
    in the same order, and a connection registered throughout is written
    the whole of it. *)
Theorem broadcast_total_order acts s :
  (∀ ord failing m rest c,
     broadcast s = m :: rest → c ∈ clients s →
     let s' := step (ADispatch ord failing) s in
     broadcast s' = rest ∧
     writes_to c (trace s') = writes_to c (trace s) ++ [m] ∧
     delivered_to c (trace s') =
       delivered_to c (trace s) ++ (if decide (c ∈ failing) then [] else [m]) ∧
     (c ∈ clients s' ↔ c ∉ failing)) ∧
  ∃ evs, trace (run acts s) = trace s ++ evs ∧
    broadcast s ++ sends evs = recvs evs ++ broadcast (run acts s) ∧
    ∀ c, delivered_to c evs `sublist_of` writes_to c evs ∧
         writes_to c evs `sublist_of` recvs evs ∧
         (c ∈ clients s → Forall (λ s', c ∈ clients s') (states acts s) →
          writes_to c evs = recvs evs ∧ delivered_to c evs = recvs evs).
Proof.
  split; [|apply run_events].
  intros ord failing m rest c Hb Hc. simpl.
  destruct (dispatch_writes ord failing s m rest c Hb Hc) as [Hw Hd].
  split_and!; [|done|done|].
  - by rewrite (handleMessages_cons _ _ _ m rest).
  - rewrite (handleMessages_cons _ _ _ m rest) by done. simpl. set_solver.
Qed.

Lemma broadcast_total_order_witness :
  ∃ evs, trace (run acts_two s_two) = trace s_two ++ evs ∧
    recvs evs = sends evs ∧
    writes_to 1 evs = recvs evs ∧ delivered_to 1 evs = recvs evs ∧
    writes_to 2 evs `sublist_of` recvs evs.
Proof.
  destruct (broadcast_total_order acts_two s_two) as (_ & evs & Ht & Hq & Hc).
  exists evs. destruct (Hc 1) as (_ & _ & H1). destruct (Hc 2) as (_ & H2 & _).
  destruct H1 as [Hw Hd]; [by_compute|by_compute|].
  split_and!; [exact Ht| |exact Hw|exact Hd|exact H2].
  change (broadcast s_two) with (@nil WSResponse) in Hq.
  change (broadcast (run acts_two s_two)) with (@nil WSResponse) in Hq.
  rewrite app_nil_r in Hq. simpl in Hq. by symmetry.
Defined.

(** ** Private replies *)

(** A session writes to its own connection, and only the history it was
    asked for; nothing else in the program calls [WriteJSON], and every
    frame sent on the channel is an update or a new task. *)
Lemma step_events_kind a s :
  ∃ evs, trace (step a s) = trace s ++ evs ∧
    Forall broadcastable (sends evs) ∧
    ∀ c m ok, EWriteJSON c m ok ∈ evs →
      ∃ msg now, a = ARead c (ReadOk msg) now ok ∧ c ∈ sessions s ∧
        MsgType msg = "get_history" ∧
        m = mkResp "history" (DataTasks (recentHistory (db s))) ∧
        evs = [EWriteJSON c m ok].
Proof.
  destruct a as [c|err|c r now ok|ord failing|now io|cmd unix now]; simpl.
  - exists []. destruct (serveWs_connect_frame c s) as (_ & _ & _ & ->).
    rewrite app_nil_r. split_and!; [done|constructor|]. by intros ??? ?%elem_of_nil.
  - exists [ELog (LogUpgrade err)]. split_and!; [done|constructor|]. set_solver.
  - destruct (decide (c ∈ sessions s)) as [Hin|Hin]; unfold serveWs_read.
    2:{ rewrite decide_False by done. exists []. rewrite app_nil_r.
        split_and!; [done|constructor|]. by intros ??? ?%elem_of_nil. }
    rewrite decide_True by done. destruct r as [msg|].
    2:{ exists [EClose c]. split_and!; [done|constructor|]. set_solver. }
    destruct (decide (MsgType msg = "get_history")) as [Hh|Hh].
    { eexists [_]. split_and!; [done|constructor|].
      intros c' m ok' [= -> -> ->]%list_elem_of_singleton. by exists msg, now. }
    destruct (decide (MsgType msg = "create_task")).
    { eexists [ESend _]. split_and!; [done| |set_solver].
      apply Forall_singleton. by right. }
    exists []. rewrite app_nil_r. split_and!; [done|constructor|].
    by intros ??? ?%elem_of_nil.
  - destruct (broadcast s) as [|m rest] eqn:Hb.
    { rewrite handleMessages_nil by done. exists []. rewrite app_nil_r.
      split_and!; [done|constructor|]. by intros ??? ?%elem_of_nil. }
    rewrite (handleMessages_cons _ _ _ m rest) by done. simpl.
    eexists (ERecv m :: _). split_and!; [done| |].
    + change (ERecv m :: ?l) with ([ERecv m] ++ l). rewrite sends_app.
      destruct (fanout_sends m failing (visit_order ord (clients s))) as [-> _].
      constructor.
    + intros c' m' ok' [?|H]%elem_of_cons; [done|].
      by apply fanout_no_private in H.
  - destruct (worker s) as [|task] eqn:Hw.
    2:{ rewrite (taskWorker_claim_busy _ _ _ task) by done. exists [].
        rewrite app_nil_r. split_and!; [done|constructor|]. by intros ??? ?%elem_of_nil. }
    destruct (tx_found (claimTx now io (db s))) eqn:Hf.
    + unfold taskWorker_claim. rewrite Hw, Hf.
      destruct (tx_err (claimTx now io (db s))) as [e|]; simpl;
        [destruct (decide (e = ErrRecordNotFound)); simpl|];
        [eexists [ESend _; ELog _]|eexists [ELog _; ESend _; ELog _]
        |eexists [ESend _; ELog _]];
        rewrite <- ?app_assoc; simpl;
        (split_and!; [done| |set_solver]); apply Forall_singleton; by left.
    + revert Hf. unfold taskWorker_claim, claimTx. rewrite Hw.
      destruct (first_fault io) as [m|]; simpl.
      { intros _. eexists [_; _]. rewrite <- app_assoc. simpl.
        split_and!; [done|constructor|set_solver]. }
      destruct (firstPending (db s)) as [t|e]; simpl.
      * destruct (save_fault io) as [m|]; simpl; [|by destruct (commit_fault io)].
        intros _. eexists [_; _]. rewrite <- app_assoc. simpl.
        split_and!; [done|constructor|set_solver].
      * intros _. case_decide; simpl.
        -- eexists [_]. split_and!; [done|constructor|set_solver].
        -- eexists [_; _]. rewrite <- app_assoc. simpl.
           split_and!; [done|constructor|set_solver].
  - destruct (worker s) as [|task] eqn:Hw.
    { rewrite taskWorker_finish_idle by done. exists [].
      rewrite app_nil_r. split_and!; [done|constructor|]. by intros ??? ?%elem_of_nil. }
    unfold taskWorker_finish. rewrite Hw.
    destruct cmd; simpl; eexists [ELog _; ESend _]; rewrite <- app_assoc; simpl;
      (split_and!; [done| |set_solver]); apply Forall_singleton; by left.
Qed.

Lemma run_sends_kind acts s :
  ∃ evs, trace (run acts s) = trace s ++ evs ∧ Forall broadcastable (sends evs).
Proof.
  revert s. induction acts as [|a acts IH]; intros s.
  - exists []. simpl. by rewrite app_nil_r.
  - destruct (step_events_kind a s) as (evs1 & Ht1 & Hs1 & _).
    destruct (IH (step a s)) as (evs2 & Ht2 & Hs2).
    exists (evs1 ++ evs2). simpl. rewrite Ht2, Ht1, <- app_assoc. split; [done|].
    rewrite sends_app. by apply Forall_app.
Qed.

(** Only updates and new tasks ever wait on the channel or are written by
    the dispatcher. *)
Lemma run_broadcastable acts s :
  Forall broadcastable (broadcast s) →
  ∃ evs, trace (run acts s) = trace s ++ evs ∧
    Forall broadcastable (sends evs) ∧
    Forall broadcastable (broadcast (run acts s)) ∧
    ∀ c, Forall broadcastable (writes_to c evs).
Proof.
  intros Hq. destruct (run_sends_kind acts s) as (evs & Ht & Hs).
  destruct (run_events acts s) as (evs' & Ht' & Hfifo & Hc).
  assert (evs' = evs) as -> by (rewrite Ht in Ht'; by apply app_inv_head in Ht').
  assert (Forall broadcastable (recvs evs ++ broadcast (run acts s))) as [Hr Hb]%Forall_app.
  { rewrite <- Hfifo. by apply Forall_app. }
  exists evs. split_and!; try done.
  intros c. destruct (Hc c) as (_ & Hsub%sublist_subseteq & _).
  rewrite Forall_forall in Hr |- *. intros m Hm. by apply Hr, Hsub.
Qed.

Lemma run_dispatch_drains ds s q frame :
  Forall is_dispatch ds → broadcast s = q ++ [frame] → length ds = length q →
  broadcast (run ds s) = [frame].
Proof.
  revert s q. induction ds as [|a ds IH]; intros s q Hd Hb Hlen.
  - destruct q; [done|discriminate].
  - apply Forall_cons in Hd as [Ha Hd]. destruct a as [| | |ord failing| |]; try done.
    destruct q as [|m q]; [discriminate|]. simpl in Hlen.
    simpl. apply (IH _ q); [done| |lia].
    by rewrite (handleMessages_cons _ _ _ m (q ++ [frame])).
Qed.

(** C7 — History privacy.  Answering get_history writes one frame, to the
    connection that asked, and leaves the channel, the registry and the
    table alone; no other step of the program writes a private frame, and
    a history frame never waits on the channel nor is written by the
    dispatcher, so no other connection receives it.  Answering
    create_task puts the new task behind the frames waiting on the
    channel, and once those are dispatched the dispatcher writes it to
    every registered connection. *)
Theorem history_reply_private :
  (∀ c msg now ok s, c ∈ sessions s → MsgType msg = "get_history" →
     let s' := step (ARead c (ReadOk msg) now ok) s in
     let reply := mkResp "history" (DataTasks (recentHistory (db s))) in
     trace s' = trace s ++ [EWriteJSON c reply ok] ∧
     broadcast s' = broadcast s ∧ clients s' = clients s ∧ db s' = db s ∧
     ∀ c', writes_to c' (trace s') = writes_to c' (trace s)) ∧
  (∀ a s, ∃ evs, trace (step a s) = trace s ++ evs ∧
     ∀ c m ok, EWriteJSON c m ok ∈ evs →
       ∃ msg now, a = ARead c (ReadOk msg) now ok ∧ c ∈ sessions s ∧
         MsgType msg = "get_history" ∧
         m = mkResp "history" (DataTasks (recentHistory (db s))) ∧
         evs = [EWriteJSON c m ok]) ∧
  (∀ acts s, Forall broadcastable (broadcast s) →
     ∃ evs, trace (run acts s) = trace s ++ evs ∧
       Forall (λ m, RespType m ≠ "history") (sends evs) ∧
       Forall (λ m, RespType m ≠ "history") (broadcast (run acts s)) ∧
       ∀ c, Forall (λ m, RespType m ≠ "history") (writes_to c evs)) ∧
  (∀ c msg now ok s, c ∈ sessions s → MsgType msg = "create_task" →
     let s' := step (ARead c (ReadOk msg) now ok) s in
     let newTask := mkTask (Gorm.next_id (db s)) (MsgPrompt msg) "Pending" "" now now in
     let frame := mkResp "new_task" (DataTask newTask) in
     db s' = db s ++ [newTask] ∧
     broadcast s' = broadcast s ++ [frame] ∧
     ∀ ds, Forall is_dispatch ds → length ds = length (broadcast s) →
       broadcast (run ds s') = [frame] ∧
       ∀ ord failing c', c' ∈ clients (run ds s') →
         writes_to c' (trace (step (ADispatch ord failing) (run ds s'))) =
           writes_to c' (trace (run ds s')) ++ [frame]).
Proof.
  assert (∀ l, Forall broadcastable l → Forall (λ m, RespType m ≠ "history") l) as Hnh.
  { intros l Hl. eapply Forall_impl; [exact Hl|].
    intros m [H|H]; rewrite H; discriminate. }
  split_and!.
  - intros c msg now ok s Hc Hm. simpl. rewrite serveWs_get_history by done. simpl.
    split_and!; try done. intros c'. rewrite writes_to_app. simpl. by rewrite app_nil_r.
  - intros a s. destruct (step_events_kind a s) as (evs & Ht & _ & Hp). by exists evs.
  - intros acts s Hq. destruct (run_broadcastable acts s Hq) as (evs & Ht & Hs & Hb & Hw).
    exists evs. split_and!; [done|by apply Hnh|by apply Hnh|]. intros c. apply Hnh, Hw.
  - intros c msg now ok s Hc Hm. simpl. rewrite serveWs_create_task by done. simpl.
    split_and!; try done. intros ds Hd Hlen.
    match goal with |- context [run ds ?st] => set (s' := st) end.
    assert (broadcast (run ds s') =
            [mkResp "new_task" (DataTask (mkTask (Gorm.next_id (db s)) (MsgPrompt msg)
                                            "Pending" "" now now))]) as Hb.
    { by apply (run_dispatch_drains ds s' (broadcast s)). }
    split; [done|]. intros ord failing c' Hc'.
    by apply (dispatch_writes ord failing _ _ [] c').
Qed.

Lemma history_reply_private_witness :
  (trace (step (ARead 1 (ReadOk (mkMsg "get_history" "")) 50%Z true) s_conn) =
     trace s_conn ++
     [EWriteJSON 1 (mkResp "history" (DataTasks (recentHistory rows_sample))) true] ∧
   broadcast (step (ARead 1 (ReadOk (mkMsg "get_history" "")) 50%Z true) s_conn) =
     broadcast s_conn ∧
   writes_to 2 (trace (step (ARead 1 (ReadOk (mkMsg "get_history" "")) 50%Z true) s_conn)) =
     writes_to 2 (trace s_conn)) ∧
  (broadcast (step (ARead 1 (ReadOk (mkMsg "create_task" "dog")) 51%Z true) s_conn) =
     [mkResp "new_task" (DataTask (mkTask 5 "dog" "Pending" "" 51%Z 51%Z))] ∧
   writes_to 2 (trace (step (ADispatch [] ∅)
       (step (ARead 1 (ReadOk (mkMsg "create_task" "dog")) 51%Z true) s_conn))) =
     writes_to 2 (trace (step (ARead 1 (ReadOk (mkMsg "create_task" "dog")) 51%Z true) s_conn))
       ++ [mkResp "new_task" (DataTask (mkTask 5 "dog" "Pending" "" 51%Z 51%Z))]).
Proof.
  destruct history_reply_private as (Hh & _ & _ & Hk).
  split.
  - pose proof (Hh 1 (mkMsg "get_history" "") 50%Z true s_conn) as H.
    cbv zeta in H. destruct H as (Ht & Hb & _ & _ & Hw); [by_compute|reflexivity|].
    split_and!; [exact Ht|exact Hb|exact (Hw 2)].
  - pose proof (Hk 1 (mkMsg "create_task" "dog") 51%Z true s_conn) as H.
    cbv zeta in H. destruct H as (_ & Hb & Hd); [by_compute|reflexivity|].
    split; [exact Hb|].
    destruct (Hd [] (Forall_nil_2 _) eq_refl) as [_ Hw].
    apply (Hw [] ∅ 2). by_compute.
Defined.

(** ** Two runs of the whole program *)

(** A task is created, claimed and completed. *)
Example run_create_claim_complete :
  let s := run [AConnect 1;
                ARead 1 (ReadOk (mkMsg "create_task" "cat")) 100%Z true;
                AClaim 101%Z healthy;
                AFinish (CmdOk "") 171234%Z 140%Z]
               (init []) in
  db s = [mkTask 1 "cat" "Completed" "task_1_171234.png" 100%Z 140%Z] ∧
  worker s = Idle ∧
  RespType <$> broadcast s = ["new_task"; "update"; "update"].
Proof. vm_compute. done. Qed.

(** Two connections see a new task; a third one, registered later, gets it
    in the private reply to its history request, and nobody else does. *)
Example run_new_task_then_history :
  let dog := mkTask 1 "dog" "Pending" "" 100%Z 100%Z in
  let s := run [AConnect 1; AConnect 2;
                ARead 1 (ReadOk (mkMsg "create_task" "dog")) 100%Z true;
                ADispatch [1; 2] ∅;
                AConnect 3;
                ARead 3 (ReadOk (mkMsg "get_history" "")) 110%Z true]
               (init []) in
  trace s =
    [ESend (mkResp "new_task" (DataTask dog));
     ERecv (mkResp "new_task" (DataTask dog));
     EWriteMessage 1 (mkResp "new_task" (DataTask dog)) true;
     EWriteMessage 2 (mkResp "new_task" (DataTask dog)) true;
     EWriteJSON 3 (mkResp "history" (DataTasks [dog])) true].
Proof. vm_compute. done. Qed.

(** ** Several callers of the claim step *)

Lemma pending_ids_replace (rows : DB) t t' :
  ID t' = ID t → ¬ pending t' →
  pending_ids ((λ r, if decide (ID r = ID t) then t' else r) <$> rows) =
  filter (λ i, i ≠ ID t) (pending_ids rows).
Proof.
  intros Hid Hnp. unfold pending_ids. induction rows as [|r rows IH]; [done|].
  rewrite fmap_cons, !filter_cons. destruct (decide (ID r = ID t)) as [He|Hne].
  - rewrite decide_False by done. rewrite IH.
    destruct (decide (pending r)); [|done].
    rewrite fmap_cons, filter_cons. by rewrite decide_False by (intros H; by apply H).
  - destruct (decide (pending r)); [|done].
    rewrite !fmap_cons, filter_cons, IH. by rewrite decide_True.
Qed.

Lemma pending_ids_NoDup (rows : DB) : NoDup (ID <$> rows) → NoDup (pending_ids rows).
Proof.
  unfold pending_ids. induction rows as [|r rows IH]; [constructor|].
  rewrite fmap_cons. intros [Hr Hnd]%NoDup_cons. rewrite filter_cons.
  case_decide; [|by apply IH]. rewrite fmap_cons. apply NoDup_cons. split; [|by apply IH].
  intros (r' & Heq & [_ Hin]%list_elem_of_filter)%list_elem_of_fmap.
  apply Hr. rewrite Heq. by apply list_elem_of_fmap_2.
Qed.

Lemma filter_ne_length (l : list N) x :
  NoDup l → x ∈ l → S (length (filter (λ i, i ≠ x) l)) = length l.
Proof.
  induction l as [|y l IH]; [by intros _ ?%elem_of_nil|].
  intros [Hy Hnd]%NoDup_cons Hin. rewrite filter_cons.
  destruct (decide (y = x)) as [->|Hne].
  - rewrite decide_False by (intros H; by apply H). simpl. f_equal.
    clear IH Hin Hnd. induction l as [|z l IH]; [done|].
    apply not_elem_of_cons in Hy as [Hz Hy]. rewrite filter_cons.
    rewrite decide_True by done. simpl. f_equal. by apply IH.
  - rewrite decide_True by done. simpl. f_equal.
    apply IH; [done|]. apply elem_of_cons in Hin as [?|?]; [congruence|done].
Qed.

Lemma claimTx_not_found_db now io (rows : DB) :
  tx_found (claimTx now io rows) = false → tx_db (claimTx now io rows) = rows.
Proof. unfold claimTx. by repeat case_match. Qed.

Lemma claimTx_found_gen now io (rows : DB) :
  wf_db rows → tx_found (claimTx now io rows) = true → commit_fault io = None →
  ∃ t, firstPending rows = inl t ∧
    claimTx now io rows = claimTx now healthy rows.
Proof.
  intros Hwf (H1 & H2 & t & Ht)%claimTx_found_inv Hk. exists t. split; [done|].
  unfold claimTx. by rewrite H1, H2, Hk.
Qed.

(** The transaction whose commit fails: the caller is handed the marked
    record, and the table is as it was. *)
Lemma claimTx_lost now io (rows : DB) m :
  wf_db rows → tx_found (claimTx now io rows) = true → commit_fault io = Some m →
  ∃ t, firstPending rows = inl t ∧
    claimTx now io rows =
    mkTx rows (with_UpdatedAt now (with_Status "Processing" t)) true
         (Some (ErrStorage m)).
Proof.
  intros [Hnd Hpos] (H1 & H2 & t & Ht)%claimTx_found_inv Hk. exists t. split; [done|].
  unfold claimTx. rewrite H1, H2, Hk, Ht.
  apply firstPending_inl in Ht as (Hin & _ & _).
  rewrite Save_update; [done| |].
  - simpl. rewrite Forall_forall in Hpos. by apply Hpos.
  - simpl. by apply list_elem_of_fmap_2.
Qed.

Lemma filter_unique_key (res : list (Caller * Task)) x :
  NoDup ((λ ct, ID ct.2) <$> res) → x ∈ res →
  filter (λ ct, ID ct.2 = ID x.2) res = [x].
Proof.
  induction res as [|y res IH]; [by intros _ ?%elem_of_nil|].
  rewrite fmap_cons. intros [Hy Hnd]%NoDup_cons Hin. rewrite filter_cons.
  apply elem_of_cons in Hin as [->|Hin].
  - rewrite decide_True by done. f_equal.
    clear IH Hnd. induction res as [|z res IH]; [done|].
    rewrite fmap_cons in Hy. apply not_elem_of_cons in Hy as [Hz Hy].
    rewrite filter_cons, decide_False by congruence. by apply IH.
  - rewrite decide_False; [by apply IH|].
    intros Heq. apply Hy. rewrite Heq.
    by apply (list_elem_of_fmap_2 (λ ct : Caller * Task, ID ct.2)).
Qed.

(** Callers that go through the transaction of [taskWorker] one at a time
    are handed tasks that were Pending before, each marked Processing;
    when every commit succeeds the tasks are distinct; and when the store
    is healthy the number of tasks handed out is the number of calls or of
    Pending rows, whichever is smaller. *)
Lemma claimNext_calls_distinct calls (rows : DB) :
  wf_db rows →
  (Forall commit_ok_call calls →
     NoDup ((λ ct, ID ct.2) <$> (claimNext_calls calls rows).1)) ∧
  (∀ ct, ct ∈ (claimNext_calls calls rows).1 →
     ID ct.2 ∈ pending_ids rows ∧ Status ct.2 = "Processing") ∧
  (Forall healthy_call calls →
     length (claimNext_calls calls rows).1 =
       min (length calls) (length (pending_ids rows))).
Proof.
  revert rows. induction calls as [|[w now io] calls IH]; intros rows Hwf.
  - simpl. split_and!; [constructor|by intros ? ?%elem_of_nil|done].
  - cbn [claimNext_calls fst snd]. destruct (tx_found (claimTx now io rows)) eqn:Hf.
    + destruct (commit_fault io) as [m|] eqn:Hk.
      { destruct (claimTx_lost now io rows m Hwf Hf Hk) as (t & Ht & ->).
        cbn [tx_db tx_task tx_found fst snd].
        pose proof (firstPending_inl _ _ Ht) as (Hin & Hp & _).
        destruct (IH rows Hwf) as (Hnd' & Hall' & Hlen'). split_and!.
        - intros [Hio _]%Forall_cons. simpl in Hio. congruence.
        - intros ct [->|Hct]%elem_of_cons; [|by apply Hall'].
          split; [|done]. unfold pending_ids.
          change (ID t ∈ ID <$> filter pending rows).
          apply list_elem_of_fmap_2. by apply list_elem_of_filter.
        - intros [Hio _]%Forall_cons. simpl in Hio. subst io. discriminate. }
      destruct (claimTx_found_gen now io rows Hwf Hf Hk) as (t & Ht & ->).
      rewrite (claimTx_found now rows t Hwf Ht). cbn [tx_db tx_task tx_found fst snd].
      pose proof (firstPending_inl _ _ Ht) as (Hin & Hp & _).
      set (t' := with_UpdatedAt now (with_Status "Processing" t)).
      set (rows' := (λ r, if decide (ID r = ID t) then t' else r) <$> rows).
      assert (wf_db rows') as Hwf'.
      { destruct Hwf as [Hnd Hpos]. split; [unfold rows'; by rewrite ids_replace|].
        apply Forall_fmap, Forall_forall. intros r Hr. simpl. rewrite Forall_forall in Hpos.
        case_decide; [by apply (Hpos t)|by apply Hpos]. }
      assert (pending_ids rows' = filter (λ i, i ≠ ID t) (pending_ids rows)) as Hpid.
      { apply pending_ids_replace; [done|]. unfold pending. simpl. discriminate. }
      assert (ID t ∈ pending_ids rows) as Htin.
      { unfold pending_ids. apply list_elem_of_fmap_2. by apply list_elem_of_filter. }
      destruct (IH rows' Hwf') as (Hnd' & Hall' & Hlen'). split_and!.
      * intros [_ Hks]%Forall_cons.
        rewrite fmap_cons. apply NoDup_cons. split; [|by apply Hnd']. simpl.
        intros (ct & Heq & Hct)%list_elem_of_fmap.
        destruct (Hall' ct Hct) as [Hc _]. rewrite Hpid, <- Heq in Hc.
        apply list_elem_of_filter in Hc as [Hc _]. by apply Hc.
      * intros ct [->|Hct]%elem_of_cons; [done|].
        destruct (Hall' ct Hct) as [Hc Hs]. split; [|done].
        rewrite Hpid in Hc. by apply list_elem_of_filter in Hc as [_ Hc].
      * intros [_ Hh]%Forall_cons. cbn [length]. rewrite (Hlen' Hh), Hpid.
        pose proof (filter_ne_length (pending_ids rows) (ID t)
                      (pending_ids_NoDup rows (proj1 Hwf)) Htin). lia.
    + rewrite (claimTx_not_found_db now io rows Hf).
      destruct (IH rows Hwf) as (Hnd' & Hall' & Hlen').
      split_and!; [by intros [_ ?]%Forall_cons; apply Hnd'|done|].
      intros [Hio Hh]%Forall_cons. simpl in Hio. subst io.
      rewrite (Hlen' Hh).
      assert (pending_ids rows = []) as ->; [|cbn [length]; lia].
      unfold claimTx in Hf. simpl in Hf.
      destruct (firstPending rows) as [t|e] eqn:E; [done|].
      apply firstPending_inr in E as [_ Hn]. unfold pending_ids.
      destruct (filter pending rows) as [|r l] eqn:Efil; [done|].
      assert (r ∈ filter pending rows) as [Hp Hr]%list_elem_of_filter
        by (rewrite Efil; by left).
      by destruct (Hn r).
Qed.

(** Exclusivity for the transaction of the current [taskWorker]: with [M]
    Pending rows and at least [M] calls on a healthy store, exactly [M]
    calls are handed a task, and every Pending row is handed to exactly
    one caller. *)
Lemma claimNext_exclusive calls (rows : DB) :
  wf_db rows → Forall healthy_call calls →
  (length (pending_ids rows) ≤ length calls)%nat →
  length (claimNext_calls calls rows).1 = length (pending_ids rows) ∧
  (λ ct, ID ct.2) <$> (claimNext_calls calls rows).1 ≡ₚ pending_ids rows ∧
  ∀ i, i ∈ pending_ids rows →
    ∃ w t, ID t = i ∧
      filter (λ ct, ID ct.2 = i) (claimNext_calls calls rows).1 = [(w, t)].
Proof.
  intros Hwf Hh Hlen.
  destruct (claimNext_calls_distinct calls rows Hwf) as (Hnd & Hall & Hn).
  specialize (Hn Hh).
  assert (Forall commit_ok_call calls) as Hk.
  { eapply Forall_impl; [exact Hh|]. by intros [w now io] ->. }
  specialize (Hnd Hk).
  assert ((λ ct, ID ct.2) <$> (claimNext_calls calls rows).1 ≡ₚ pending_ids rows) as Hperm.
  { apply submseteq_length_Permutation.
    - apply NoDup_submseteq; [done|].
      intros i (ct & -> & Hct)%list_elem_of_fmap. by apply Hall.
    - rewrite length_fmap. lia. }
  split_and!; [lia|done|].
  intros i Hi. rewrite <- Hperm in Hi.
  apply list_elem_of_fmap in Hi as ([w t] & -> & Hct).
  exists w, t. split; [done|].
  by apply (filter_unique_key _ (w, t)).
Qed.

(** The claim step of [server.go] with two callers that both read before
    either writes: whatever the table, the oldest Pending row is handed to
    both. *)
Lemma server_go_race (rows : DB) t now1 now2 :
  wf_db rows → firstPending rows = inl t →
  ServerGo.claimed
    (ServerGo.exec_all
       [ServerGo.SFirst 1; ServerGo.SFirst 2;
        ServerGo.SSave 1 now1; ServerGo.SSave 2 now2]
       (ServerGo.mkCallers rows ∅ [])) =
  [(1, with_UpdatedAt now1 (with_Status "Processing" t));
   (2, with_UpdatedAt now2 (with_Status "Processing" t))].
Proof.
  intros [Hnd Hpos] Hf.
  pose proof (firstPending_inl _ _ Hf) as (Hin & _ & _).
  assert (ID t ≠ 0%N) as Hz by (rewrite Forall_forall in Hpos; by apply Hpos).
  assert (ID t ∈ ID <$> rows) as Hid by (by apply list_elem_of_fmap_2).
  unfold ServerGo.exec_all. cbn [foldl].
  unfold ServerGo.exec at 4. cbn [ServerGo.locals ServerGo.rows ServerGo.claimed].
  rewrite lookup_empty, Hf.
  unfold ServerGo.exec at 3. cbn [ServerGo.locals ServerGo.rows ServerGo.claimed].
  rewrite lookup_insert_ne by done. rewrite lookup_empty, Hf.
  unfold ServerGo.exec at 2. cbn [ServerGo.locals ServerGo.rows ServerGo.claimed].
  rewrite lookup_insert_ne by done. rewrite lookup_insert_eq.
  rewrite (Save_update now1 (with_Status "Processing" t) rows) by done.
  cbn [fst snd].
  unfold ServerGo.exec. cbn [ServerGo.locals ServerGo.rows ServerGo.claimed].
  rewrite lookup_delete_ne by done. rewrite lookup_insert_eq.
  rewrite Save_update; [done|done|].
  cbn [ID with_Status]. by rewrite ids_replace.
Qed.

(** C1 — Claim exclusivity.  The claim step of [server.go] reads the
    oldest Pending row and marks it in two statements outside any
    transaction: when two callers both read before either writes, the one
    Pending row is handed to both of them.  The transaction of the current
    [taskWorker] hands the same row, on the same calls, to the first
    caller only. *)
Theorem server_go_double_claim :
  wf_db rows_one ∧ pending_ids rows_one = [1%N] ∧
  ServerGo.claimed (ServerGo.exec_all race (ServerGo.mkCallers rows_one ∅ [])) =
    [(1, mkTask 1 "cat" "Processing" "" 5%Z 10%Z);
     (2, mkTask 1 "cat" "Processing" "" 5%Z 11%Z)] ∧
  (claimNext_calls [Call 1 10%Z healthy; Call 2 11%Z healthy] rows_one).1 =
    [(1, mkTask 1 "cat" "Processing" "" 5%Z 10%Z)].
Proof. split_and!; [by_compute|reflexivity|vm_compute; reflexivity|vm_compute; reflexivity]. Qed.

(** * More properties of the program *)

(** ** The worker when it finds a task, and when the picture is made *)

(** X1 — A successful claim.  When the worker is at the top of its loop,
    the store answers and the table has a Pending row, one turn of the
    worker marks the oldest Pending row Processing and touches no other
    row, sends the update frame with the marked record before anything
    else, logs the task, does not sleep, and goes on to the generation
    with that record. *)
Theorem claim_marks_and_notifies now s :
  worker s = Idle → wf_db (db s) → (∃ r, r ∈ db s ∧ pending r) →
  ∃ t, firstPending (db s) = inl t ∧
    worker (step (AClaim now healthy) s) =
      Generating (with_UpdatedAt now (with_Status "Processing" t)) ∧
    lookup_id (ID t) (db (step (AClaim now healthy) s)) =
      Some (with_UpdatedAt now (with_Status "Processing" t)) ∧
    (∀ i, i ≠ ID t →
       lookup_id i (db (step (AClaim now healthy) s)) = lookup_id i (db s)) ∧
    ID <$> db (step (AClaim now healthy) s) = ID <$> db s ∧
    broadcast (step (AClaim now healthy) s) =
      broadcast s ++ [update_of (with_UpdatedAt now (with_Status "Processing" t))] ∧
    trace (step (AClaim now healthy) s) =
      trace s ++ [ESend (update_of (with_UpdatedAt now (with_Status "Processing" t)));
                  ELog (LogProcessing (ID t) (Prompt t))] ∧
    clients (step (AClaim now healthy) s) = clients s.
Proof.
  intros Hw Hwf (r0 & Hr0 & Hp0).
  destruct (firstPending_some _ r0 Hr0 Hp0) as [t Ht]. exists t.
  pose proof (firstPending_inl _ _ Ht) as (Hin & _ & _).
  simpl. rewrite (taskWorker_claim_found now healthy s t) by done. simpl.
  destruct Hwf as [Hnd Hpos].
  split_and!; try done.
  - rewrite lookup_id_replace by done. rewrite (lookup_id_elem_of _ t Hnd Hin).
    simpl. by rewrite decide_True.
  - intros i Hi. by apply lookup_id_replace_ne.
  - by apply ids_replace.
Qed.

Lemma claim_marks_and_notifies_witness :
  ∃ t, firstPending (db s_conn) = inl t ∧
    worker (step (AClaim 10%Z healthy) s_conn) =
      Generating (with_UpdatedAt 10%Z (with_Status "Processing" t)) ∧
    lookup_id (ID t) (db (step (AClaim 10%Z healthy) s_conn)) =
      Some (with_UpdatedAt 10%Z (with_Status "Processing" t)) ∧
    (∀ i, i ≠ ID t →
       lookup_id i (db (step (AClaim 10%Z healthy) s_conn)) = lookup_id i (db s_conn)) ∧
    ID <$> db (step (AClaim 10%Z healthy) s_conn) = ID <$> db s_conn ∧
    broadcast (step (AClaim 10%Z healthy) s_conn) =
      broadcast s_conn ++ [update_of (with_UpdatedAt 10%Z (with_Status "Processing" t))] ∧
    trace (step (AClaim 10%Z healthy) s_conn) =
      trace s_conn ++ [ESend (update_of (with_UpdatedAt 10%Z (with_Status "Processing" t)));
                  ELog (LogProcessing (ID t) (Prompt t))] ∧
    clients (step (AClaim 10%Z healthy) s_conn) = clients s_conn.
Proof.
  apply (claim_marks_and_notifies 10%Z s_conn).
  - reflexivity.
  - by_compute.
  - exists (mkTask 3 "c" "Pending" "" 7%Z 7%Z). split; [by_compute|reflexivity].
Defined.

Lemma fileName_nonempty id unix : fileName id unix ≠ "".
Proof. unfold fileName. discriminate. Qed.

(** X2 — A successful generation.  When [runPythonZImage] returns without
    error for the task the worker holds, the row of that task is written
    back as Completed with the file name [task_<id>_<second>.png] as its
    result path, no other row changes, the completion is logged, an update
    frame with the Completed record is sent, the worker is back at the top
    of its loop, and the row stays Completed with that path in every later
    state. *)
Theorem generation_success_recorded output unix now s task :
  consistent s → worker s = Generating task →
  let s' := step (AFinish (CmdOk output) unix now) s in
  let final := with_UpdatedAt now
                 (with_ImagePath (fileName (ID task) unix)
                    (with_Status "Completed" task)) in
  runPythonZImage (CmdOk output) unix (Prompt task) (ID task) =
    (fileName (ID task) unix, None) ∧
  lookup_id (ID task) (db s') = Some final ∧
  (∀ i, i ≠ ID task → lookup_id i (db s') = lookup_id i (db s)) ∧
  broadcast s' = broadcast s ++ [update_of final] ∧
  trace s' = trace s ++ [ELog (LogCompleted (ID task)); ESend (update_of final)] ∧
  worker s' = Idle ∧ consistent s' ∧
  ∀ acts, lookup_id (ID task) (db (run acts s')) = Some final.
Proof.
  intros Hc Hw. simpl.
  pose proof (step_consistent (AFinish (CmdOk output) unix now) s I Hc) as Hc'.
  simpl in Hc'.
  rewrite (taskWorker_finish_busy _ unix now s task Hc Hw) in *. simpl in *.
  destruct Hc as [[Hnd Hpos] Hok]. unfold worker_ok in Hok. rewrite Hw in Hok.
  destruct Hok as (Hz & Hl & Hs).
  set (final := with_UpdatedAt now
                  (with_ImagePath (fileName (ID task) unix)
                     (with_Status "Completed" task))) in *.
  assert (lookup_id (ID task)
            ((λ r, if decide (ID r = ID task) then final else r) <$> db s)
          = Some final) as Hfinal.
  { rewrite lookup_id_replace by done. rewrite Hl. simpl. by rewrite decide_True. }
  split_and!; try done.
  - intros i Hi. by apply lookup_id_replace_ne.
  - intros acts.
    match goal with |- context [run acts ?st] => set (s' := st) in * end.
    apply terminal_row_stable; [done|done|by left].
Qed.

Lemma generation_success_recorded_witness :
  let s' := step (AFinish (CmdOk "") 171234%Z 12%Z) s_busy in
  let final := mkTask 2 "b" "Completed" "task_2_171234.png" 7%Z 12%Z in
  consistent s_busy ∧ worker s_busy = Generating task_busy ∧
  lookup_id 2 (db s') = Some final ∧
  broadcast s' = [update_of final] ∧
  worker s' = Idle ∧
  ∀ acts, lookup_id 2 (db (run acts s')) = Some final.
Proof.
  assert (consistent s_busy) as Hc by by_compute.
  assert (worker s_busy = Generating task_busy) as Hw by reflexivity.
  destruct (generation_success_recorded "" 171234%Z 12%Z s_busy task_busy Hc Hw)
    as (_ & Hl & _ & Hb & _ & Hi & _ & Hf).
  split_and!; [exact Hc|exact Hw|exact Hl|exact Hb|exact Hi|exact Hf].
Defined.

(** X3 — A finished task is never touched again.  Once a row is Completed
    or Failed, no step of the program changes any of its columns: along
    every run the table keeps the very same record under that key. *)
Theorem finished_row_frozen acts s i r :
  consistent s → lookup_id i (db s) = Some r → terminal (Status r) →
  lookup_id i (db (run acts s)) = Some r.
Proof. apply terminal_row_stable. Qed.

Lemma finished_row_frozen_witness :
  lookup_id 1 (db (run [AClaim 10%Z healthy; AFinish (CmdOk "") 171234%Z 12%Z;
                        ARead 1 (ReadOk (mkMsg "create_task" "e")) 13%Z true;
                        AClaim 14%Z healthy]
                       s_conn)) =
  Some (mkTask 1 "a" "Completed" "task_1_5.png" 5%Z 9%Z).
Proof.
  apply (finished_row_frozen _ s_conn 1 (mkTask 1 "a" "Completed" "task_1_5.png" 5%Z 9%Z)).
  - by_compute.
  - reflexivity.
  - by left.
Defined.

(** ** Invariants of the table *)

Lemma path_ok_unset (rows : DB) r :
  path_ok rows → r ∈ rows → Status r ≠ "Completed" → ImagePath r = "".
Proof.
  intros Hok Hr Hs. destruct (decide (ImagePath r = "")) as [|Hne]; [done|].
  by apply (Hok r Hr) in Hne.
Qed.

Lemma path_ok_replace (rows : DB) t final :
  path_ok rows → (Status final = "Completed" ↔ ImagePath final ≠ "") →
  path_ok ((λ r, if decide (ID r = ID t) then final else r) <$> rows).
Proof.
  intros Hok Hf r' (r & -> & Hr)%list_elem_of_fmap.
  case_decide; [done|by apply Hok].
Qed.

Lemma holds_path_unset task row (rows : DB) :
  path_ok rows → row ∈ rows → holds task row → ImagePath task = "".
Proof.
  intros Hok Hr [[-> Hs]|[Hs ->]]; simpl.
  - apply (path_ok_unset rows); [done|done|]. rewrite Hs. discriminate.
  - apply (path_ok_unset rows); [done|done|]. rewrite Hs. discriminate.
Qed.

Lemma step_path_ok a s :
  sound s → path_ok (db s) → path_ok (db (step a s)).
Proof.
  intros Hc Hok. destruct a as [c|err|c r now ok|ord failing|now io|cmd unix now]; simpl.
  - by destruct (serveWs_connect_frame c s) as (-> & _).
  - done.
  - destruct (decide (c ∈ sessions s)) as [Hin|Hin];
      [|unfold serveWs_read; by rewrite decide_False].
    destruct r as [msg|]; [|unfold serveWs_read; by rewrite decide_True].
    destruct (decide (MsgType msg = "get_history")) as [Hh|Hh].
    { by rewrite serveWs_get_history. }
    destruct (decide (MsgType msg = "create_task")) as [Hk|Hk];
      [|by rewrite serveWs_read_unknown].
    rewrite serveWs_create_task by done. simpl.
    intros r [Hr| ->%list_elem_of_singleton]%elem_of_app; [by apply Hok|].
    simpl. split; [discriminate|done].
  - by destruct (handleMessages_frame ord failing s) as (-> & _).
  - destruct (worker s) as [|task] eqn:Hw;
      [|by rewrite (taskWorker_claim_busy _ _ _ task)].
    destruct (tx_found (claimTx now io (db s))) eqn:Hf.
    + apply claimTx_found_inv in Hf as (H1 & H2 & t & Ht).
      destruct Hc as [Hwf _].
      destruct (commit_fault io) as [m|] eqn:Hk;
        [by rewrite (taskWorker_claim_lost now io s t m)|].
      rewrite (taskWorker_claim_found now io s t) by done. simpl.
      apply firstPending_inl in Ht as (Hin & Hp & _).
      apply (path_ok_replace _ t); [done|]. simpl.
      rewrite (path_ok_unset _ t Hok Hin) by (rewrite Hp; discriminate).
      split; [discriminate|done].
    + by destruct (taskWorker_claim_not_found now io s Hw Hf) as (evs & -> & _).
  - destruct (worker s) as [|task] eqn:Hw;
      [by rewrite taskWorker_finish_idle|].
    rewrite (taskWorker_finish_busy_sound cmd unix now s task) by done. simpl.
    destruct Hc as [_ Hwok]. unfold worker_sound in Hwok. rewrite Hw in Hwok.
    destruct Hwok as (_ & row & [Hrow _]%lookup_id_Some & Hh).
    apply (path_ok_replace _ task); [done|].
    destruct cmd as [output|err output]; simpl.
    + split; [discriminate|done].
    + rewrite (holds_path_unset task row (db s)) by done.
      split; [discriminate|done].
Qed.

(** X4 — The result path goes with the Completed status.  If in the
    table every Completed row has a result path and no other row has one,
    this is so in every state the program reaches from there: the worker
    sets the path exactly when it marks a row Completed. *)
Theorem result_path_iff_completed acts s :
  consistent s → path_ok (db s) →
  ∀ r, r ∈ db (run acts s) → (Status r = "Completed" ↔ ImagePath r ≠ "").
Proof.
  intros Hc%consistent_sound. revert s Hc.
  induction acts as [|a acts IH]; intros s Hc Hok; [done|].
  simpl. apply IH; [by apply step_sound|by apply step_path_ok].
Qed.

Lemma result_path_iff_completed_witness :
  path_ok (db s_conn) ∧
  ∀ r, r ∈ db (run [AClaim 10%Z healthy; AFinish (CmdOk "") 171234%Z 12%Z;
                    AClaim 14%Z healthy; AFinish (CmdErr "exit status 1" "") 171240%Z 15%Z]
                   s_conn) →
       (Status r = "Completed" ↔ ImagePath r ≠ "").
Proof.
  assert (path_ok (db s_conn)) as Hok.
  { intros r Hr. change (db s_conn) with rows_sample in Hr.
    unfold rows_sample in Hr. repeat (apply elem_of_cons in Hr as [->|Hr]);
      [..|by apply elem_of_nil in Hr]; simpl; split; done. }
  split; [exact Hok|].
  apply (result_path_iff_completed _ s_conn); [by_compute|exact Hok].
Defined.

(** ** One job in flight *)






(** The same start, with a claim whose commit fails: the worker generates
    and no row is marked. *)
Example one_job_in_flight_lost :
  let s' := run [ARead 1 (ReadOk (mkMsg "create_task" "dog")) 100%Z true;
                 AClaim 102%Z lost_commit] s_two in
  worker s' = Generating (mkTask 1 "dog" "Processing" "" 100%Z 102%Z) ∧
  processing (db s') = [] ∧ status_of 1 (db s') = Some "Pending".
Proof. vm_compute. done. Qed.

(** ** The queue is served oldest first, and to the end *)

Lemma firstPending_strict (rows : DB) t r :
  wf_db rows → firstPending rows = inl t →
  r ∈ rows → pending r → ID r ≠ ID t → key_lt t r.
Proof.
  intros _ Ht Hr Hp Hne. apply firstPending_inl in Ht as (_ & _ & Hmin).
  destruct (Hmin r Hr Hp) as [Hlt|[Heq Hle]]; [by left|].
  right. split; [done|]. lia.
Qed.

Lemma key_lt_le a b : key_lt a b → key_le a b.
Proof. by left. Qed.

Lemma claimNext_calls_keys calls (rows : DB) :
  wf_db rows →
  StronglySorted key_le (snd <$> (claimNext_calls calls rows).1) ∧
  (Forall commit_ok_call calls →
     StronglySorted key_lt (snd <$> (claimNext_calls calls rows).1)) ∧
  ∀ ct, ct ∈ (claimNext_calls calls rows).1 →
    ∃ r, r ∈ rows ∧ pending r ∧ ID r = ID ct.2 ∧ CreatedAt r = CreatedAt ct.2.
Proof.
  revert rows. induction calls as [|[w now io] calls IH]; intros rows Hwf.
  - simpl. split_and!; [constructor|constructor|by intros ? ?%elem_of_nil].
  - cbn [claimNext_calls fst snd]. destruct (tx_found (claimTx now io rows)) eqn:Hf.
    + destruct (commit_fault io) as [m|] eqn:Hk.
      { destruct (claimTx_lost now io rows m Hwf Hf Hk) as (t & Ht & ->).
        cbn [tx_db tx_task tx_found fst snd].
        pose proof (firstPending_inl _ _ Ht) as (Hin & Hp & Hmin).
        destruct (IH rows Hwf) as (Hle & Hlt & Hall). split_and!.
        - rewrite fmap_cons. constructor; [done|]. apply Forall_fmap, Forall_forall.
          intros ct Hct. destruct (Hall ct Hct) as (r & Hr & Hpr & Hi & Hc).
          pose proof (Hmin r Hr Hpr) as Hm.
          unfold key_le, key_lt, Gorm.created_asc_id in *. simpl.
          rewrite <- Hi, <- Hc. lia.
        - intros [Hio _]%Forall_cons. simpl in Hio. congruence.
        - intros ct [->|Hct]%elem_of_cons; [|by apply Hall].
          exists t. by split_and!. }
      destruct (claimTx_found_gen now io rows Hwf Hf Hk) as (t & Ht & ->).
      rewrite (claimTx_found now rows t Hwf Ht). cbn [tx_db tx_task tx_found fst snd].
      pose proof (firstPending_inl _ _ Ht) as (Hin & Hp & _).
      set (t' := with_UpdatedAt now (with_Status "Processing" t)).
      set (rows' := (λ r, if decide (ID r = ID t) then t' else r) <$> rows).
      assert (wf_db rows') as Hwf'.
      { destruct Hwf as [Hnd Hpos]. split; [unfold rows'; by rewrite ids_replace|].
        apply Forall_fmap, Forall_forall. intros r Hr. simpl. rewrite Forall_forall in Hpos.
        case_decide; [by apply (Hpos t)|by apply Hpos]. }
      destruct (IH rows' Hwf') as (Hle & Hlt & Hall).
      assert (∀ ct, ct ∈ (claimNext_calls calls rows').1 →
                ∃ r, r ∈ rows ∧ pending r ∧ ID r ≠ ID t ∧
                     ID r = ID ct.2 ∧ CreatedAt r = CreatedAt ct.2) as Hall'.
      { intros ct Hct. destruct (Hall ct Hct) as (r' & Hr' & Hp' & Hi & Hc).
        apply list_elem_of_fmap in Hr' as (r & -> & Hr).
        destruct (decide (ID r = ID t)) as [He|Hne]; [discriminate Hp'|].
        by exists r. }
      assert (Forall (key_lt t') (snd <$> (claimNext_calls calls rows').1)) as Hhead.
      { apply Forall_fmap, Forall_forall.
        intros ct Hct. destruct (Hall' ct Hct) as (r & Hr & Hpr & Hne & Hi & Hc).
        pose proof (firstPending_strict rows t r Hwf Ht Hr Hpr Hne) as Hlt'.
        unfold key_lt in *. simpl. rewrite <- Hi, <- Hc. done. }
      split_and!.
      * rewrite fmap_cons. constructor; [done|].
        eapply Forall_impl; [exact Hhead|]. intros x. apply key_lt_le.
      * intros [_ Hks]%Forall_cons. rewrite fmap_cons. constructor; [by apply Hlt|done].
      * intros ct [->|Hct]%elem_of_cons.
        -- exists t. by split_and!.
        -- destruct (Hall' ct Hct) as (r & Hr & Hpr & _ & Hi & Hc). by exists r.
    + rewrite (claimTx_not_found_db now io rows Hf).
      destruct (IH rows Hwf) as (Hle & Hlt & Hall).
      split_and!; [done| |done]. intros [_ Hks]%Forall_cons. by apply Hlt.
Qed.

(** X6 — The queue is served oldest first.  However many times the
    transaction of [taskWorker] is gone through on a table, by one caller
    or by several, and whatever fails, the tasks are handed out in
    increasing order of (createdAt, id): no task is handed out after a
    younger one.  When every commit succeeds the order is strict, so that
    no task is handed out twice; after a commit that failed the same task
    is handed out again. *)
Theorem claims_in_fifo_order calls (rows : DB) :
  wf_db rows →
  StronglySorted key_le (snd <$> (claimNext_calls calls rows).1) ∧
  (Forall commit_ok_call calls →
     StronglySorted key_lt (snd <$> (claimNext_calls calls rows).1)).
Proof.
  intros Hwf. destruct (claimNext_calls_keys calls rows Hwf) as (Hle & Hlt & _).
  by split.
Qed.

Lemma claims_in_fifo_order_witness :
  StronglySorted key_le
    (snd <$> (claimNext_calls
                [Call 1 10%Z healthy; Call 2 11%Z healthy; Call 1 12%Z healthy;
                 Call 2 13%Z healthy] rows_sample).1) ∧
  StronglySorted key_lt
    (snd <$> (claimNext_calls
                [Call 1 10%Z healthy; Call 2 11%Z healthy; Call 1 12%Z healthy;
                 Call 2 13%Z healthy] rows_sample).1).
Proof.
  destruct (claims_in_fifo_order
              [Call 1 10%Z healthy; Call 2 11%Z healthy; Call 1 12%Z healthy;
               Call 2 13%Z healthy] rows_sample) as [Hle Hlt]; [by_compute|].
  split; [exact Hle|]. apply Hlt. by_compute.
Defined.

Example claims_in_fifo_order_sample :
  (λ ct, (ct.1, ID ct.2)) <$>
    (claimNext_calls [Call 1 10%Z healthy; Call 2 11%Z healthy; Call 1 12%Z healthy;
                      Call 2 13%Z healthy] rows_sample).1 =
  [(1, 2%N); (2, 3%N); (1, 4%N)].
Proof. vm_compute. reflexivity. Qed.

(** After a commit that failed the next caller is handed the same task. *)
Example claims_after_lost_commit :
  (λ ct, (ct.1, ID ct.2)) <$>
    (claimNext_calls [Call 1 10%Z lost_commit; Call 2 11%Z healthy; Call 1 12%Z healthy]
                     rows_sample).1 =
  [(1, 2%N); (2, 2%N); (1, 3%N)].
Proof. vm_compute. reflexivity. Qed.

Lemma filter_ne_idemp (l : list N) x :
  filter (λ i, i ≠ x) (filter (λ i, i ≠ x) l) = filter (λ i, i ≠ x) l.
Proof.
  induction l as [|y l IH]; [done|]. rewrite filter_cons.
  destruct (decide (y ≠ x)); [|done]. rewrite filter_cons, decide_True by done.
  by rewrite IH.
Qed.

Lemma work_cons o rounds s :
  run (work (o :: rounds)) s =
  run (work rounds)
      (step (AFinish (result o) (made_at o) (saved_at o))
            (step (AClaim (claim_at o) healthy) s)).
Proof. done. Qed.

(** One round of the worker on a table with a Pending row. *)
Lemma work_round o s t :
  consistent s → worker s = Idle → firstPending (db s) = inl t →
  let s' := step (AFinish (result o) (made_at o) (saved_at o))
                 (step (AClaim (claim_at o) healthy) s) in
  consistent s' ∧ worker s' = Idle ∧
  pending_ids (db s') = filter (λ i, i ≠ ID t) (pending_ids (db s)) ∧
  ∃ st, status_of (ID t) (db s') = Some st ∧ terminal st.
Proof.
  intros Hc Hw Ht.
  pose proof (step_consistent (AClaim (claim_at o) healthy) s eq_refl Hc) as Hc1.
  pose proof (step_consistent (AFinish (result o) (made_at o) (saved_at o)) _ I Hc1) as Hc2.
  simpl in *.
  set (t' := with_UpdatedAt (claim_at o) (with_Status "Processing" t)) in *.
  assert (worker (taskWorker_claim (claim_at o) healthy s) = Generating t' ∧
          db (taskWorker_claim (claim_at o) healthy s) =
            (λ r, if decide (ID r = ID t) then t' else r) <$> db s) as [Hw1 Hd1].
  { rewrite (taskWorker_claim_found (claim_at o) healthy s t);
      [done|done| |done|done|done|done].
    by destruct Hc. }
  rewrite (taskWorker_finish_busy _ _ _ _ t' Hc1 Hw1) in *. simpl in *.
  rewrite Hd1 in *.
  match goal with |- context [if decide (_ = ID t) then ?f else _] =>
    match f with t' => fail 1 | _ => set (final := f) in * end end.
  assert (ID final = ID t ∧ terminal (Status final)) as [Hidf Htf].
  { unfold final. destruct (result o); simpl; auto using or_introl, or_intror.
    - split; [done|by left].
    - split; [done|by right]. }
  split_and!; [done|done| |].
  - rewrite (pending_ids_replace _ t final); [|done|].
    + rewrite (pending_ids_replace _ t t'); [|done|].
      * apply filter_ne_idemp.
      * unfold pending. simpl. discriminate.
    + unfold pending. destruct Htf as [-> | ->]; discriminate.
  - exists (Status final). split; [|done]. unfold status_of.
    destruct Hc as [[Hnd _] _]. apply firstPending_inl in Ht as (Hin & _ & _).
    rewrite lookup_id_replace by done. rewrite lookup_id_replace by done.
    rewrite (lookup_id_elem_of _ t Hnd Hin). simpl.
    destruct (decide (ID t = ID t)); [|done]. simpl. by rewrite decide_True.
Qed.

(** X7 — The worker drains the queue.  On a store that answers, with
    nobody adding tasks, as many turns of the worker as there are Pending
    rows leave no Pending row: every task that was Pending is Completed or
    Failed, and the worker is at the top of its loop. *)
Theorem worker_drains_queue rounds s :
  consistent s → worker s = Idle →
  length rounds = length (pending_ids (db s)) →
  pending_ids (db (run (work rounds) s)) = [] ∧
  worker (run (work rounds) s) = Idle ∧
  ∀ i, i ∈ pending_ids (db s) →
    ∃ st, status_of i (db (run (work rounds) s)) = Some st ∧ terminal st.
Proof.
  revert s. induction rounds as [|o rounds IH]; intros s Hc Hw Hlen.
  - simpl. destruct (pending_ids (db s)); [|discriminate].
    split_and!; [done|done|]. by intros i ?%elem_of_nil.
  - assert (∃ t, firstPending (db s) = inl t) as [t Ht].
    { destruct (firstPending (db s)) as [t|e] eqn:E; [by eexists|].
      apply firstPending_inr in E as [_ Hn]. exfalso.
      unfold pending_ids in Hlen. destruct (filter pending (db s)) as [|r l] eqn:Ef;
        [discriminate|].
      assert (r ∈ filter pending (db s)) as [Hp Hr]%list_elem_of_filter
        by (rewrite Ef; by left).
      by destruct (Hn r). }
    rewrite work_cons.
    destruct (work_round o s t Hc Hw Ht) as (Hc' & Hw' & Hpid & st & Hst & Hterm).
    assert (ID t ∈ pending_ids (db s)) as Htin.
    { apply firstPending_inl in Ht as (Hin & Hp & _). unfold pending_ids.
      apply list_elem_of_fmap_2. by apply list_elem_of_filter. }
    pose proof (filter_ne_length (pending_ids (db s)) (ID t)
                  (pending_ids_NoDup _ (proj1 (proj1 Hc))) Htin) as Hfl.
    destruct (IH _ Hc' Hw') as (Hnone & Hidle & Hall).
    { rewrite Hpid. simpl in Hlen. lia. }
    split_and!; [done|done|].
    intros i Hi. destruct (decide (i = ID t)) as [->|Hne].
    + exists st. split; [|done]. by apply terminal_stable.
    + apply Hall. rewrite Hpid. by apply list_elem_of_filter.
Qed.

Lemma worker_drains_queue_witness :
  pending_ids (db (run (work [mkRound 10%Z (CmdOk "") 171234%Z 12%Z;
                              mkRound 13%Z (CmdErr "exit status 1" "") 171240%Z 14%Z;
                              mkRound 15%Z (CmdOk "") 171250%Z 16%Z]) s_conn)) = [] ∧
  worker (run (work [mkRound 10%Z (CmdOk "") 171234%Z 12%Z;
                     mkRound 13%Z (CmdErr "exit status 1" "") 171240%Z 14%Z;
                     mkRound 15%Z (CmdOk "") 171250%Z 16%Z]) s_conn) = Idle ∧
  ∀ i, i ∈ pending_ids (db s_conn) →
    ∃ st, status_of i (db (run (work [mkRound 10%Z (CmdOk "") 171234%Z 12%Z;
                     mkRound 13%Z (CmdErr "exit status 1" "") 171240%Z 14%Z;
                     mkRound 15%Z (CmdOk "") 171250%Z 16%Z]) s_conn)) = Some st ∧
          terminal st.
Proof.
  apply (worker_drains_queue _ s_conn); [by_compute|reflexivity|reflexivity].
Defined.

(** ** The dispatcher and the registry *)

Lemma visit_order_Permutation ord1 ord2 (cl : gset Conn) :
  visit_order ord1 cl ≡ₚ visit_order ord2 cl.
Proof.
  apply NoDup_Permutation; [apply visit_order_NoDup..|].
  intros c. by rewrite !visit_order_elem_of.
Qed.

(** X8 — The order of the map does not matter.  Whatever order the loop
    over [clients] takes, one turn of the dispatcher ends with the same
    table, registry, sessions, channel and worker, every connection has
    been written the same frames with the same outcome, and the two
    traces hold the same events. *)
Theorem dispatch_order_irrelevant ord1 ord2 failing s :
  db (step (ADispatch ord1 failing) s) = db (step (ADispatch ord2 failing) s) ∧
  clients (step (ADispatch ord1 failing) s) = clients (step (ADispatch ord2 failing) s) ∧
  sessions (step (ADispatch ord1 failing) s) = sessions (step (ADispatch ord2 failing) s) ∧
  broadcast (step (ADispatch ord1 failing) s) = broadcast (step (ADispatch ord2 failing) s) ∧
  worker (step (ADispatch ord1 failing) s) = worker (step (ADispatch ord2 failing) s) ∧
  trace (step (ADispatch ord1 failing) s) ≡ₚ trace (step (ADispatch ord2 failing) s) ∧
  ∀ c, writes_to c (trace (step (ADispatch ord1 failing) s)) =
         writes_to c (trace (step (ADispatch ord2 failing) s)) ∧
       delivered_to c (trace (step (ADispatch ord1 failing) s)) =
         delivered_to c (trace (step (ADispatch ord2 failing) s)).
Proof.
  simpl. destruct (broadcast s) as [|m rest] eqn:Hb.
  { rewrite !handleMessages_nil by done. by split_and!. }
  rewrite !(handleMessages_cons _ _ _ m rest) by done. simpl.
  split_and!; try done.
  - apply Permutation_app_head. constructor.
    apply bind_Permutation, visit_order_Permutation.
  - intros c. rewrite !writes_to_app, !delivered_to_app.
    change (ERecv m :: ?l) with ([ERecv m] ++ l).
    rewrite !writes_to_app, !delivered_to_app.
    destruct (decide (c ∈ clients s)) as [Hc|Hc].
    + destruct (fanout_writes m failing (visit_order ord1 (clients s)) c) as [-> ->];
        [apply visit_order_NoDup|by apply visit_order_elem_of|].
      destruct (fanout_writes m failing (visit_order ord2 (clients s)) c) as [-> ->];
        [apply visit_order_NoDup|by apply visit_order_elem_of|]. done.
    + destruct (fanout_writes_other m failing (visit_order ord1 (clients s)) c) as [-> ->];
        [by rewrite visit_order_elem_of|].
      destruct (fanout_writes_other m failing (visit_order ord2 (clients s)) c) as [-> ->];
        [by rewrite visit_order_elem_of|]. done.
Qed.

Lemma fanout_close msg failing visit c :
  EClose c ∈ visit ≫= write_events msg failing ↔ c ∈ visit ∧ c ∈ failing.
Proof.
  induction visit as [|x visit IH].
  - split; [by intros ?%elem_of_nil|by intros [?%elem_of_nil _]].
  - rewrite bind_cons, elem_of_app, IH, elem_of_cons. unfold write_events.
    destruct (decide (x ∈ failing)) as [Hx|Hx].
    + rewrite !elem_of_cons, elem_of_nil. split.
      * intros [[?|[[= ->]|[]]]|[? ?]]; [done|auto|auto].
      * intros [[->|?] ?]; [left; right; by left|by right].
    + rewrite list_elem_of_singleton. split.
      * intros [?|[? ?]]; [done|auto].
      * intros [[->|?] ?]; [done|by right].
Qed.

(** X9 — The dispatcher prunes exactly the dead connections.  When a
    frame is waiting, one turn of the dispatcher takes it off the channel,
    closes and unregisters every registered connection whose write failed
    and no other, and leaves the table, the worker and the sessions
    alone. *)
Theorem dispatch_prunes_failed ord failing s m rest :
  broadcast s = m :: rest →
  let s' := step (ADispatch ord failing) s in
  broadcast s' = rest ∧
  clients s' = clients s ∖ failing ∧
  (∀ c, c ∈ clients s → (c ∈ clients s' ↔ c ∉ failing)) ∧
  (∃ evs, trace s' = trace s ++ ERecv m :: evs ∧
     ∀ c, EClose c ∈ evs ↔ c ∈ clients s ∧ c ∈ failing) ∧
  db s' = db s ∧ worker s' = worker s ∧ sessions s' = sessions s.
Proof.
  intros Hb. simpl. rewrite (handleMessages_cons _ _ _ m rest) by done. simpl.
  split_and!; try done.
  - intros c Hc. set_solver.
  - eexists. split; [done|]. intros c.
    by rewrite fanout_close, visit_order_elem_of.
Qed.

Lemma dispatch_prunes_failed_witness :
  clients (step (ADispatch [] {[2]})
             (step (ARead 1 (ReadOk (mkMsg "create_task" "dog")) 51%Z true) s_conn)) =
    clients s_conn ∖ {[2]} ∧
  broadcast (step (ADispatch [] {[2]})
             (step (ARead 1 (ReadOk (mkMsg "create_task" "dog")) 51%Z true) s_conn)) = [].
Proof.
  pose proof (dispatch_prunes_failed [] {[2]}
                (step (ARead 1 (ReadOk (mkMsg "create_task" "dog")) 51%Z true) s_conn)
                (mkResp "new_task" (DataTask (mkTask 5 "dog" "Pending" "" 51%Z 51%Z))) []
                eq_refl) as H.
  cbv zeta in H. destruct H as (Hb & Hc & _). split; [exact Hc|exact Hb].
Defined.

Lemma step_clients_grow a s c :
  c ∈ clients (step a s) → c ∈ clients s ∨ a = AConnect c.
Proof.
  intros Hin.
  destruct a as [c'|err|c' r now ok|ord failing|now io|cmd unix now]; simpl in Hin.
  - unfold serveWs_connect in Hin. destruct (decide (c' ∈ sessions s)); [by left|].
    simpl in Hin. apply elem_of_union in Hin as [->%elem_of_singleton|?]; auto.
  - by left.
  - left. unfold serveWs_read in Hin. destruct (decide (c' ∈ sessions s)); [|done].
    destruct r as [msg|]; [by repeat case_decide|]. simpl in Hin. set_solver.
  - left. destruct (broadcast s) as [|m rest] eqn:Hb.
    + by rewrite handleMessages_nil in Hin.
    + rewrite (handleMessages_cons _ _ _ m rest) in Hin by done. simpl in Hin. set_solver.
  - left. by rewrite (proj1 (taskWorker_claim_frame _ _ _)) in Hin.
  - left. by rewrite (proj1 (taskWorker_finish_frame _ _ _ _)) in Hin.
Qed.

Lemma step_sessions_grow a s c :
  c ∈ sessions (step a s) → c ∈ sessions s ∨ a = AConnect c.
Proof.
  intros Hin.
  destruct a as [c'|err|c' r now ok|ord failing|now io|cmd unix now]; simpl in Hin.
  - unfold serveWs_connect in Hin. destruct (decide (c' ∈ sessions s)); [by left|].
    simpl in Hin. apply elem_of_union in Hin as [->%elem_of_singleton|?]; auto.
  - by left.
  - left. unfold serveWs_read in Hin. destruct (decide (c' ∈ sessions s)); [|done].
    destruct r as [msg|]; [by repeat case_decide|]. simpl in Hin. set_solver.
  - left. by rewrite (proj2 (proj2 (handleMessages_frame _ _ _))) in Hin.
  - left. by rewrite (proj2 (taskWorker_claim_frame _ _ _)) in Hin.
  - left. by rewrite (proj2 (taskWorker_finish_frame _ _ _ _)) in Hin.
Qed.

(** X10 — Nothing more for a connection that is gone.  As long as it does
    not connect again, a connection that is not registered stays
    unregistered and the dispatcher writes it no frame; and if its session
    has ended as well, no private frame is written to it either. *)
Theorem unregistered_gets_nothing acts s c :
  c ∉ clients s → Forall (λ a, a ≠ AConnect c) acts →
  ∃ evs, trace (run acts s) = trace s ++ evs ∧
    (c ∉ clients (run acts s)) ∧
    writes_to c evs = [] ∧
    (c ∉ sessions s →
       (c ∉ sessions (run acts s)) ∧ ∀ m ok, EWriteJSON c m ok ∉ evs).
Proof.
  revert s. induction acts as [|a acts IH]; intros s Hc Hacts.
  - exists []. simpl. rewrite app_nil_r. split_and!; try done.
    intros Hs. split; [done|]. intros m ok. apply not_elem_of_nil.
  - apply Forall_cons in Hacts as [Ha Hacts].
    assert (c ∉ clients (step a s)) as Hc1.
    { intros [?|?]%step_clients_grow; done. }
    destruct (IH (step a s) Hc1 Hacts) as (evs2 & Ht2 & Hc2 & Hw2 & Hs2).
    destruct (step_events a s) as (evs1 & Ht1 & _ & Hw1).
    destruct (step_events_kind a s) as (evs1' & Ht1' & _ & Hp1).
    assert (evs1' = evs1) as -> by (rewrite Ht1 in Ht1'; by apply app_inv_head in Ht1').
    exists (evs1 ++ evs2). simpl. split_and!.
    + by rewrite Ht2, Ht1, <- app_assoc.
    + done.
    + rewrite writes_to_app, Hw2. destruct (Hw1 c) as [-> _].
      by rewrite decide_False.
    + intros Hs. assert (c ∉ sessions (step a s)) as Hs1.
      { intros [?|?]%step_sessions_grow; done. }
      destruct (Hs2 Hs1) as [Hs2' Hp2]. split; [done|].
      intros m ok [Hin|Hin]%elem_of_app; [|by apply (Hp2 m ok)].
      destruct (Hp1 c m ok Hin) as (_ & _ & _ & Hsess & _). done.
Qed.

Lemma unregistered_gets_nothing_witness :
  ∃ evs,
    trace (run [ARead 1 (ReadOk (mkMsg "create_task" "dog")) 52%Z true;
                ADispatch [] ∅; ARead 2 (ReadOk (mkMsg "get_history" "")) 53%Z true]
               (step (ARead 2 ReadErr 51%Z true) s_conn)) =
      trace (step (ARead 2 ReadErr 51%Z true) s_conn) ++ evs ∧
    writes_to 2 evs = [] ∧ ∀ m ok, EWriteJSON 2 m ok ∉ evs.
Proof.
  destruct (unregistered_gets_nothing
              [ARead 1 (ReadOk (mkMsg "create_task" "dog")) 52%Z true;
               ADispatch [] ∅; ARead 2 (ReadOk (mkMsg "get_history" "")) 53%Z true]
              (step (ARead 2 ReadErr 51%Z true) s_conn) 2)
    as (evs & Ht & _ & Hw & Hs).
  - by_compute.
  - repeat constructor; discriminate.
  - exists evs. split_and!; [exact Ht|exact Hw|]. apply Hs. by_compute.
Defined.

(** ** History after the tasks are created *)

Lemma recentHistory_all (rows : DB) :
  (length rows ≤ 20)%nat → recentHistory rows ≡ₚ rows.
Proof.
  intros Hlen. unfold recentHistory, Gorm.Limit, Gorm.Order.
  rewrite take_ge; [apply merge_sort_Permutation|].
  by rewrite merge_sort_Permutation.
Qed.

(** X11 — With at most 20 tasks the history is complete.  When the table
    has at most 20 rows, the reply to get_history carries every row of the
    table, each once; in particular a task created while the table had
    fewer than 20 rows is in the history that is asked for next. *)
Theorem history_complete_when_small c msg now ok s :
  (length (db s) ≤ 20)%nat →
  recentHistory (db s) ≡ₚ db s ∧
  (c ∈ sessions s → MsgType msg = "create_task" → (length (db s) < 20)%nat →
   mkTask (Gorm.next_id (db s)) (MsgPrompt msg) "Pending" "" now now ∈
     recentHistory (db (step (ARead c (ReadOk msg) now ok) s))).
Proof.
  intros Hlen. split; [by apply recentHistory_all|].
  intros Hc Hm Hlt. simpl. rewrite serveWs_create_task by done. simpl.
  rewrite recentHistory_all by (rewrite length_app; simpl; lia).
  apply elem_of_app. right. by left.
Qed.

Lemma history_complete_when_small_witness :
  recentHistory (db s_conn) ≡ₚ db s_conn ∧
  mkTask 5 "dog" "Pending" "" 51%Z 51%Z ∈
    recentHistory (db (step (ARead 1 (ReadOk (mkMsg "create_task" "dog")) 51%Z true) s_conn)).
Proof.
  destruct (history_complete_when_small 1 (mkMsg "create_task" "dog") 51%Z true s_conn)
    as [H1 H2]; [by_compute|].
  split; [exact H1|]. apply H2; [by_compute|reflexivity|by_compute].
Defined.

Lemma recentHistory_newest (rows : DB) t :
  (∀ r, r ∈ rows → (CreatedAt r < CreatedAt t)%Z) →
  ∃ rest, recentHistory (rows ++ [t]) = t :: rest.
Proof.
  intros Hnew. unfold recentHistory, Gorm.Limit, Gorm.Order.
  pose proof (merge_sort_Permutation Gorm.created_desc (rows ++ [t])) as Hp.
  pose proof (StronglySorted_merge_sort Gorm.created_desc (rows ++ [t])) as Hs.
  destruct (merge_sort Gorm.created_desc (rows ++ [t])) as [|h l] eqn:E.
  { apply Permutation_nil_l in Hp. by destruct rows. }
  assert (t ∈ h :: l) as Ht by (rewrite Hp; apply elem_of_app; right; by left).
  assert (h ∈ rows ++ [t]) as Hh by (rewrite <- Hp; by left).
  destruct (decide (h = t)) as [->|Hne]; [by eexists|].
  exfalso. apply elem_of_app in Hh as [Hh|Hh%list_elem_of_singleton]; [|done].
  apply elem_of_cons in Ht as [->|Ht]; [done|].
  apply StronglySorted_inv in Hs as [_ Hall]. rewrite Forall_forall in Hall.
  specialize (Hall t Ht). unfold Gorm.created_desc in Hall.
  specialize (Hnew h Hh). lia.
Qed.

(** X12 — The newest task heads the history.  A task created at an
    instant later than the creation of every row of the table is the
    first task of the history that is asked for next. *)
Theorem new_task_heads_history c msg now ok s :
  c ∈ sessions s → MsgType msg = "create_task" →
  (∀ r, r ∈ db s → (CreatedAt r < now)%Z) →
  ∃ rest,
    recentHistory (db (step (ARead c (ReadOk msg) now ok) s)) =
    mkTask (Gorm.next_id (db s)) (MsgPrompt msg) "Pending" "" now now :: rest.
Proof.
  intros Hc Hm Hnew. simpl. rewrite serveWs_create_task by done. simpl.
  by apply recentHistory_newest.
Qed.

Lemma new_task_heads_history_witness :
  ∃ rest,
    recentHistory (db (step (ARead 1 (ReadOk (mkMsg "create_task" "dog")) 51%Z true) s_conn)) =
    mkTask 5 "dog" "Pending" "" 51%Z 51%Z :: rest.
Proof.
  apply (new_task_heads_history 1 (mkMsg "create_task" "dog") 51%Z true s_conn).
  - by_compute.
  - reflexivity.
  - intros r Hr. change (db s_conn) with rows_sample in Hr. unfold rows_sample in Hr.
    repeat (apply elem_of_cons in Hr as [->|Hr]); [..|by apply elem_of_nil in Hr];
      simpl; lia.
Defined.

(** ** Creating a task *)

(** X13 — create_task adds one row and changes none.  On a table with
    distinct positive keys, answering create_task appends one Pending row
    with the prompt of the message and no result path, under a key larger
    than every key in use; the keys stay distinct and positive, every other
    row is as it was, and the only effect besides is the new_task frame
    sent on the channel: nothing is written to the requester directly. *)
Theorem create_task_appends c msg now ok s :
  c ∈ sessions s → MsgType msg = "create_task" → wf_db (db s) →
  let s' := step (ARead c (ReadOk msg) now ok) s in
  let newTask := mkTask (Gorm.next_id (db s)) (MsgPrompt msg) "Pending" "" now now in
  db s' = db s ++ [newTask] ∧
  wf_db (db s') ∧
  (∀ r, r ∈ db s → (ID r < ID newTask)%N) ∧
  lookup_id (ID newTask) (db s') = Some newTask ∧
  (∀ i, i ≠ ID newTask → lookup_id i (db s') = lookup_id i (db s)) ∧
  trace s' = trace s ++ [ESend (mkResp "new_task" (DataTask newTask))] ∧
  clients s' = clients s ∧ sessions s' = sessions s ∧ worker s' = worker s.
Proof.
  intros Hc Hm Hwf. simpl. rewrite serveWs_create_task by done. simpl.
  pose proof (Create_wf now (mkTask 0 (MsgPrompt msg) "Pending" "" 0%Z 0%Z) (db s)
                eq_refl Hwf) as Hwf'.
  pose proof (Create_lookup now (mkTask 0 (MsgPrompt msg) "Pending" "" 0%Z 0%Z) (db s)) as Hl.
  simpl in Hwf', Hl.
  split_and!; try done.
  - intros r Hr. by apply next_id_above.
  - rewrite Hl by done. by rewrite decide_True.
  - intros i Hi. rewrite Hl by done. by rewrite decide_False.
Qed.

Lemma create_task_appends_witness :
  db (step (ARead 1 (ReadOk (mkMsg "create_task" "dog")) 51%Z true) s_conn) =
    db s_conn ++ [mkTask 5 "dog" "Pending" "" 51%Z 51%Z] ∧
  wf_db (db (step (ARead 1 (ReadOk (mkMsg "create_task" "dog")) 51%Z true) s_conn)).
Proof.
  pose proof (create_task_appends 1 (mkMsg "create_task" "dog") 51%Z true s_conn) as H.
  cbv zeta in H. destruct H as (Hd & Hwf & _); [by_compute|reflexivity|by_compute|].
  split; [exact Hd|exact Hwf].
Defined.

(** ** The worker of server.go *)

(** X14 — The two workers agree when the store answers, up to the lines
    of GORM's logger.  Whenever the store answers, one worker running
    alone leaves in [server.go] the table, the channel, the registry and
    itself as it does in the current server, whether it finds a task or
    not, and the events of the current server are those of [server.go]
    without the lines of GORM's logger.  On an empty queue [server.go],
    which keeps that logger, writes a [record not found] line at every
    poll, and the current server writes nothing.  When the read fails both
    sleep and leave the table alone; the current server logs the error
    itself, and in [server.go] only GORM's logger does. *)
Theorem server_go_worker_agrees now slow1 slow2 s :
  let s1 := ServerGoLoop.taskWorker_claim now None slow1 slow2 s in
  let s2 := taskWorker_claim now healthy s in
  (db s1 = db s2 ∧ clients s1 = clients s2 ∧ sessions s1 = sessions s2 ∧
   broadcast s1 = broadcast s2 ∧ worker s1 = worker s2 ∧
   ∃ evs, trace s1 = trace s ++ evs ∧ trace s2 = trace s ++ own_events evs) ∧
  (worker s = Idle → (∀ r, r ∈ db s → ¬ pending r) →
     s1 = emit [ELog (LogGormError ErrRecordNotFound); ESleep 2] s ∧
     s2 = emit [ESleep 2] s) ∧
  ∀ m, worker s = Idle →
    ServerGoLoop.taskWorker_claim now (Some m) slow1 slow2 s =
      emit [ELog (LogGormError (ErrStorage m)); ESleep 2] s ∧
    taskWorker_claim now (mkFaults (Some m) None None) s =
      emit [ELog (LogTxError (ErrStorage m)); ESleep 2] s.
Proof.
  cbv zeta. split; [|split].
  - unfold ServerGoLoop.taskWorker_claim, taskWorker_claim, claimTx.
    destruct (worker s).
    2:{ split_and!; try done. exists []. change (own_events []) with (@nil Event).
        by rewrite app_nil_r. }
    simpl. destruct (firstPending (db s)) as [t|e] eqn:E; simpl.
    + split_and!; try done.
      exists (ServerGoLoop.gorm_trace None slow1 ++ ServerGoLoop.gorm_trace None slow2 ++
              [ESend (mkResp "update"
                        (DataTask (Gorm.Save now (with_Status "Processing" t) (db s)).2));
               ELog (LogProcessing
                       (ID (Gorm.Save now (with_Status "Processing" t) (db s)).2)
                       (Prompt (Gorm.Save now (with_Status "Processing" t) (db s)).2))]).
      split; [by rewrite <- !app_assoc|].
      unfold own_events. rewrite !filter_app.
      destruct slow1, slow2; simpl; by rewrite <- ?app_assoc.
    + apply firstPending_inr in E as [-> _]. simpl.
      split_and!; try done.
      exists [ELog (LogGormError ErrRecordNotFound); ESleep 2]. done.
  - intros Hw Hnone. unfold ServerGoLoop.taskWorker_claim, taskWorker_claim, claimTx.
    rewrite Hw. simpl.
    destruct (firstPending (db s)) as [t|e] eqn:E.
    + apply firstPending_inl in E as (Hin & Hp & _). by destruct (Hnone t).
    + apply firstPending_inr in E as [-> _]. simpl. by rewrite set_db_same.
  - intros m Hw. unfold ServerGoLoop.taskWorker_claim, taskWorker_claim, claimTx.
    rewrite Hw. simpl. by rewrite set_db_same, emit_emit.
Qed.

Lemma server_go_worker_agrees_witness :
  ServerGoLoop.taskWorker_claim 20%Z None false false (init rows_done) =
    emit [ELog (LogGormError ErrRecordNotFound); ESleep 2] (init rows_done) ∧
  taskWorker_claim 20%Z healthy (init rows_done) = emit [ESleep 2] (init rows_done) ∧
  ServerGoLoop.taskWorker_claim 20%Z (Some "disk I/O error") false false (init rows_done) =
    emit [ELog (LogGormError (ErrStorage "disk I/O error")); ESleep 2] (init rows_done).
Proof.
  destruct (server_go_worker_agrees 20%Z false false (init rows_done)) as (_ & H2 & H3).
  destruct H2 as [Ha Hb]; [reflexivity| |].
  { intros r [->|Hr]%elem_of_cons; [discriminate|]. by apply elem_of_nil in Hr. }
  destruct (H3 "disk I/O error" eq_refl) as [Hc _].
  split_and!; [exact Ha|exact Hb|exact Hc].
Defined.

(** The worker of [server.go] on the sample table, with a slow read. *)
Example server_go_worker_sample :
  let s1 := ServerGoLoop.taskWorker_claim 10%Z None true false s_conn in
  db s1 = db (taskWorker_claim 10%Z healthy s_conn) ∧
  trace s1 = [ELog LogGormSlow; ESend (update_of task_busy); ELog (LogProcessing 2 "b")].
Proof. vm_compute. done. Qed.

(** ** The environment *)

(** X15 — Pictures are written under the served root only when the root
    is set.  The directory [runPythonZImage] writes to is the directory
    [images] of the document root [main] serves exactly when the variable
    DocumentRoot is set and not empty; when it is not, [main] serves
    [www/html] and the pictures go to [/images]. *)
Theorem output_dir_under_document_root env :
  (outputDir env = documentRoot (main_config env) +:+ "/images" ↔
   Getenv env "DocumentRoot" ≠ "") ∧
  (Getenv env "DocumentRoot" = "" →
   documentRoot (main_config env) = "www/html" ∧ outputDir env = "/images").
Proof.
  unfold outputDir, main_config. simpl.
  destruct (decide (Getenv env "DocumentRoot" = "")) as [He|Hne].
  - rewrite He. simpl. split; [|done]. split; [discriminate|done].
  - split; [done|]. intros ?. done.
Qed.

Lemma output_dir_under_document_root_witness :
  (documentRoot (main_config ∅) = "www/html" ∧ outputDir ∅ = "/images") ∧
  outputDir {[ "DocumentRoot" := "site" ]} =
    documentRoot (main_config {[ "DocumentRoot" := "site" ]}) +:+ "/images".
Proof.
  split.
  - by apply (output_dir_under_document_root ∅).
  - apply (output_dir_under_document_root {[ "DocumentRoot" := "site" ]}). by_compute.
Defined.

(** ** The names of the pictures *)

Lemma pretty_N_char_no_underscore x : pretty_N_char x ≠ "_"%char.
Proof. unfold pretty_N_char. repeat case_match; discriminate. Qed.

Lemma pretty_N_go_no_underscore x s :
  no_underscore s → no_underscore (pretty_N_go x s).
Proof.
  revert s. induction (N.lt_wf_0 x) as [x _ IH]. intros s Hs.
  destruct (decide (0 < x)%N) as [Hx|Hx].
  - rewrite pretty_N_go_step by done. apply IH.
    + by apply N.div_lt.
    + split; [apply pretty_N_char_no_underscore|done].
  - assert (x = 0%N) as -> by lia. by rewrite pretty_N_go_0.
Qed.

Lemma pretty_N_no_underscore (x : N) : no_underscore (pretty x).
Proof.
  unfold pretty, pretty_N. case_decide.
  - simpl. split; [discriminate|done].
  - by apply pretty_N_go_no_underscore.
Qed.

Lemma split_at_underscore a a' r r' :
  no_underscore a → no_underscore a' →
  a +:+ String "_" r = a' +:+ String "_" r' → a = a' ∧ r = r'.
Proof.
  revert a'. induction a as [|c a IH]; intros [|c' a'] Ha Ha' Heq; simpl in *.
  - by injection Heq as ->.
  - injection Heq as <- _. by destruct Ha'.
  - injection Heq as -> _. by destruct Ha.
  - injection Heq as -> Heq. destruct Ha as [_ Ha], Ha' as [_ Ha'].
    destruct (IH a' Ha Ha' Heq) as [-> ->]. done.
Qed.

Lemma string_length_app s t :
  String.length (s +:+ t) = String.length s + String.length t.
Proof. induction s as [|c s IH]; simpl; [done|by rewrite IH]. Qed.

Lemma string_app_inv_r s s' t : s +:+ t = s' +:+ t → s = s'.
Proof.
  revert s'. induction s as [|c s IH]; intros [|c' s'] Heq; simpl in *.
  - done.
  - apply (f_equal String.length) in Heq.
    rewrite ?string_length_app in Heq. simpl in Heq.
    rewrite ?string_length_app in Heq. lia.
  - apply (f_equal String.length) in Heq.
    rewrite ?string_length_app in Heq. simpl in Heq.
    rewrite ?string_length_app in Heq. lia.
  - injection Heq as -> Heq. f_equal. by apply IH.
Qed.

Lemma fileName_eq_inv id unix id' unix' :
  fileName id unix = fileName id' unix' → id = id' ∧ unix = unix'.
Proof.
  unfold fileName. intros Heq. simpl in Heq. injection Heq as Heq.
  apply split_at_underscore in Heq as [Hid Hunix];
    [|apply pretty_N_no_underscore..].
  apply string_app_inv_r in Hunix.
  split; [by apply (inj pretty)|by apply (inj pretty)].
Qed.

(** X16 — Two pictures never share a name.  The file name that
    [runPythonZImage] returns on success determines the task and the
    second it was made for: two successful generations return the same
    name only for the same task in the same second, so the picture of one
    task is never written over that of another. *)
Theorem picture_names_distinct output unix prompt id output' unix' prompt' id' :
  (runPythonZImage (CmdOk output) unix prompt id).1 =
  (runPythonZImage (CmdOk output') unix' prompt' id').1 →
  id = id' ∧ unix = unix'.
Proof. simpl. apply fileName_eq_inv. Qed.

Lemma picture_names_distinct_witness : (2 = 2)%N ∧ (171234 = 171234)%Z.
Proof.
  apply (picture_names_distinct "" 171234 "cat" 2 "done" 171234 "dog" 2).
  reflexivity.
Defined.

Example fileName_sample : fileName 1 171234 = "task_1_171234.png".
Proof. vm_compute. reflexivity. Qed.

(** ** Who writes the table *)

(** X17 — Only the worker changes a task.  A step of a session or of the
    dispatcher leaves every row of the table as it is: connecting, reading
    a message of any kind, failing to read, and dispatching never change
    the record under a key that is in use. *)
Theorem only_worker_changes_rows a s i r :
  (∀ now io, a ≠ AClaim now io) → (∀ cmd unix now, a ≠ AFinish cmd unix now) →
  lookup_id i (db s) = Some r →
  lookup_id i (db (step a s)) = Some r.
Proof.
  intros Hc Hf Hl.
  destruct a as [c|err|c rd now ok|ord failing|now io|cmd unix now]; simpl.
  - by destruct (serveWs_connect_frame c s) as (-> & _).
  - done.
  - destruct (decide (c ∈ sessions s)) as [Hin|Hin];
      [|unfold serveWs_read; by rewrite decide_False].
    destruct rd as [msg|]; [|unfold serveWs_read; by rewrite decide_True].
    destruct (decide (MsgType msg = "get_history")) as [Hh|Hh].
    { by rewrite serveWs_get_history. }
    destruct (decide (MsgType msg = "create_task")) as [Hk|Hk];
      [|by rewrite serveWs_read_unknown].
    rewrite serveWs_create_task by done. simpl. by rewrite lookup_id_app, Hl.
  - by destruct (handleMessages_frame ord failing s) as (-> & _).
  - by destruct (Hc now io).
  - by destruct (Hf cmd unix now).
Qed.

Lemma only_worker_changes_rows_witness :
  lookup_id 3 (db (step (ARead 1 (ReadOk (mkMsg "create_task" "dog")) 51%Z true) s_conn)) =
  Some (mkTask 3 "c" "Pending" "" 7%Z 7%Z).
Proof.
  apply only_worker_changes_rows; [discriminate|discriminate|reflexivity].
Defined.

Lemma db_change_keys s s' :
  db_change s s' → ∃ new, ID <$> db s' = (ID <$> db s) ++ new.
Proof.
  intros [Hd _|prompt now Hd _|t now _ _ _ Hd _|task final _ Hid _ Hd _]; rewrite Hd.
  - exists []. by rewrite app_nil_r.
  - eexists. by rewrite fmap_app.
  - exists []. rewrite app_nil_r. by apply ids_replace.
  - exists []. rewrite app_nil_r. by apply ids_replace.
Qed.

Lemma step_keys a s :
  sound s → ∃ new, ID <$> db (step a s) = (ID <$> db s) ++ new.
Proof.
  intros Hc.
  destruct (step_db_change_sound a s Hc) as [Hch|(_ & t & now & _ & _ & _ & Hd & _)].
  - by apply db_change_keys.
  - exists []. by rewrite Hd, app_nil_r.
Qed.

(** X18 — No task is ever deleted.  Along every run the keys of the table
    stay where they are and new keys are only added behind them: the
    program never removes a row, never changes a key, and never reorders
    the table. *)
Theorem rows_never_deleted acts s :
  consistent s → ∃ new, ID <$> db (run acts s) = (ID <$> db s) ++ new.
Proof.
  intros Hc%consistent_sound. revert s Hc.
  induction acts as [|a acts IH]; intros s Hc.
  - exists []. by rewrite app_nil_r.
  - simpl. destruct (IH (step a s) (step_sound a s Hc)) as [new2 ->].
    destruct (step_keys a s Hc) as [new1 ->].
    exists (new1 ++ new2). by rewrite app_assoc.
Qed.

Lemma rows_never_deleted_witness :
  ∃ new, ID <$> db (run acts_two s_two) = (ID <$> db s_two) ++ new.
Proof. apply rows_never_deleted. by_compute. Defined.
